(** * Verification of docs/validate-links.py

    A shallow embedding of the documentation link validator
    ([DocumentationLinkValidator] and [main]) together with the part of
    Python's [re] module that its link pattern exercises.

    Conventions of the embedding:
    - a Python [str] is a [string]; its characters are the bytes of the
      UTF-8 encoding.  The link pattern only names ASCII characters and
      UTF-8 never reuses an ASCII byte inside a multi-byte sequence, so
      matching on bytes and matching on code points find the same links;
    - a [dict] is a [gmap]; a [set] is a [gset];
    - [self.errors], [self.warnings] and the text printed on standard
      output are threaded explicitly through the [validator] record;
    - the directory listing [self.markdown_files] is a list of [md_file]
      records, each carrying the outcome of [read_text] on that file. *)

From Stdlib Require Import Ascii String.
From stdpp Require Import gmap strings list fin_maps sorting pretty.

(** ** Regular expressions: the fragment of [re] used by the link pattern *)

Module Re.

(** Abstract syntax.  [NotLit c] is the negated class [[^c]] (it matches
    every character but [c], newlines included); [Plus], [Star] and [Opt]
    are the greedy quantifiers [+], [*] and [?]; [Grp] is a capturing
    group.  A non-capturing group [(?:r)] is plain bracketing and needs
    no constructor. *)
Inductive regex : Type :=
  | Lit (c : ascii)
  | NotLit (c : ascii)
  | Cat (r1 r2 : regex)
  | Plus (r : regex)
  | Star (r : regex)
  | Opt (r : regex)
  | Grp (r : regex).

(** A matcher state: the text still to be read and the groups captured so
    far, in the order in which the groups were closed. *)
Definition mstate : Type := list ascii * list (list ascii).

(** Greedy iteration.  The outcomes are listed in the order in which a
    backtracking matcher tries them: one more iteration first, stopping
    here last.  An iteration has to consume text, so [fuel = length] of
    the remaining text is never exhausted early. *)
Fixpoint star_run (step : mstate → list mstate) (fuel : nat) (st : mstate)
  : list mstate :=
  match fuel with
  | O => [st]
  | S fuel' =>
      (filter (λ st', length st'.1 < length st.1) (step st)
         ≫= star_run step fuel') ++ [st]
  end.

(** [run r st] lists every way in which [r] matches a prefix of the text
    of [st], most preferred first; the head of the list is the match that
    Python's backtracking engine reports. *)
Fixpoint run (r : regex) (st : mstate) : list mstate :=
  match r with
  | Lit c =>
      match st.1 with
      | a :: s => if decide (a = c) then [(s, st.2)] else []
      | [] => []
      end
  | NotLit c =>
      match st.1 with
      | a :: s => if decide (a = c) then [] else [(s, st.2)]
      | [] => []
      end
  | Cat r1 r2 => run r1 st ≫= run r2
  | Plus r1 => run r1 st ≫= λ st', star_run (run r1) (length st'.1) st'
  | Star r1 => star_run (run r1) (length st.1) st
  | Opt r1 => run r1 st ++ [st]
  | Grp r1 =>
      (λ st', (st'.1, st'.2 ++ [take (length st.1 - length st'.1) st.1]))
        <$> run r1 st
  end.

(** [pattern.match] anchored at the start of [s]: the remaining text and
    the captured groups of the preferred match, if any. *)
Definition match_here (r : regex) (s : list ascii) : option mstate :=
  head (run r (s, [])).

(** [pattern.findall]: scan left to right, report the groups of every
    match, resume after the end of each match.  [skip] counts the
    characters of the current match that are still to be stepped over. *)
Fixpoint findall_from (r : regex) (skip : nat) (s : list ascii) {struct s}
  : list (list (list ascii)) :=
  match skip with
  | S k =>
      match s with
      | [] => []
      | _ :: s' => findall_from r k s'
      end
  | O =>
      match match_here r s with
      | Some (rest, caps) =>
          caps ::
            match s with
            | [] => []
            | _ :: s' => findall_from r (length s - length rest - 1) s'
            end
      | None =>
          match s with
          | [] => []
          | _ :: s' => findall_from r 0 s'
          end
      end
  end.

Definition findall (r : regex) (s : string) : list (list string) :=
  map (map string_of_list_ascii) (findall_from r 0 (list_ascii_of_string s)).

(** What a regex matches, as a relation: [sem r pre caps] says that [r]
    can consume exactly [pre], capturing [caps] on the way. *)
Inductive sem : regex → list ascii → list (list ascii) → Prop :=
  | sem_Lit c : sem (Lit c) [c] []
  | sem_NotLit c a : a ≠ c → sem (NotLit c) [a] []
  | sem_Cat r1 r2 p1 p2 c1 c2 :
      sem r1 p1 c1 → sem r2 p2 c2 → sem (Cat r1 r2) (p1 ++ p2) (c1 ++ c2)
  | sem_Plus r p1 p2 c1 c2 :
      sem r p1 c1 → sem (Star r) p2 c2 → sem (Plus r) (p1 ++ p2) (c1 ++ c2)
  | sem_Star_stop r : sem (Star r) [] []
  | sem_Star_more r p1 p2 c1 c2 :
      sem r p1 c1 → sem (Star r) p2 c2 → sem (Star r) (p1 ++ p2) (c1 ++ c2)
  | sem_Opt_some r p c : sem r p c → sem (Opt r) p c
  | sem_Opt_none r : sem (Opt r) [] []
  | sem_Grp r p c : sem r p c → sem (Grp r) p (c ++ [p]).

End Re.

Import Re.

Declare Scope regex_scope.
Delimit Scope regex_scope with re.
Infix "·" := Cat (at level 41, right associativity) : regex_scope.

(** [self.link_pattern].  The source compiles the raw string whose parts,
    written here with blanks between them, are
    [\[  ([^\]]+)  \]  \(  ([^)]+\.md)  (?:#[^)]* )?  \)]. *)
Definition link_pattern : regex :=
  (Lit "[" · Grp (Plus (NotLit "]")) · Lit "]" ·
   Lit "(" · Grp (Plus (NotLit ")") · Lit "." · Lit "m" · Lit "d") ·
   Opt (Lit "#" · Star (NotLit ")")) · Lit ")")%re.

(** ** Strings *)

(** The line feed, Python's ["\n"]. *)
Definition nl : string := String "010" "".

(** [s.endswith(suffix)]. *)
Definition endswith (s suffix : string) : bool :=
  let l := list_ascii_of_string s in
  let k := list_ascii_of_string suffix in
  bool_decide (drop (length l - length k) l = k).

(** [sep.join(l)]. *)
Definition join (sep : string) (l : list string) : string :=
  String.concat sep l.

(** [c * n] for a one-character string [c]. *)
Definition repeat_char (c : ascii) (n : nat) : string :=
  string_of_list_ascii (replicate n c).

(** [sorted(l)] on strings: ascending in Python's string order, which on
    UTF-8 bytes is the lexicographic order [String.le]. *)
Definition sorted (l : list string) : list string :=
  merge_sort String.le l.

(** ** The data model *)

(** What [md_file.read_text(encoding='utf-8')] gives for a file: its text,
    or the exception [e] (kept as [str(e)]) that the read raises. *)
Inductive read_result : Type :=
  | ReadOk (content : string)
  | ReadError (e : string).

Record md_file : Type := MdFile {
  name : string;
  read_text : read_result
}.

Global Instance read_result_eq_dec : EqDecision read_result.
Proof. solve_decision. Defined.

Global Instance md_file_eq_dec : EqDecision md_file.
Proof. solve_decision. Defined.

(** A link is a pair (display text, target file name). *)
Definition link : Type := string * string.

(** The validator object, with the standard output of the process carried
    along as the list of the arguments of the [print] calls so far. *)
Record validator : Type := Validator {
  docs_dir : string;
  markdown_files : list md_file;
  errors : list string;
  warnings : list string;
  stdout : list string
}.

(** [DocumentationLinkValidator.__init__]; [files] is what
    [docs_dir.glob("*.md")] lists and [out] what was printed before. *)
Definition new_validator (dir : string) (files : list md_file)
    (out : list string) : validator :=
  {| docs_dir := dir; markdown_files := files;
     errors := []; warnings := []; stdout := out |}.

Definition add_error (msg : string) (v : validator) : validator :=
  {| docs_dir := docs_dir v; markdown_files := markdown_files v;
     errors := errors v ++ [msg]; warnings := warnings v;
     stdout := stdout v |}.

Definition add_warning (msg : string) (v : validator) : validator :=
  {| docs_dir := docs_dir v; markdown_files := markdown_files v;
     errors := errors v; warnings := warnings v ++ [msg];
     stdout := stdout v |}.

Definition print (line : string) (v : validator) : validator :=
  {| docs_dir := docs_dir v; markdown_files := markdown_files v;
     errors := errors v; warnings := warnings v;
     stdout := stdout v ++ [line] |}.

Definition print_all (lines : list string) (v : validator) : validator :=
  foldl (λ v line, print line v) v lines.

(** ** Messages (the f-strings of the source) *)

Definition broken_link_message (src target_file link_text : string) : string :=
  "❌ " +:+ src +:+ ": Broken link to '" +:+ target_file +:+
  "' (text: '" +:+ link_text +:+ "')".

Definition read_error_message (src e : string) : string :=
  "❌ Error reading " +:+ src +:+ ": " +:+ e.

Definition orphan_message (filename : string) : string :=
  "⚠️  " +:+ filename +:+ ": No incoming links (potential orphan)".

Definition nav_only_message (filename : string) : string :=
  "⚠️  " +:+ filename +:+ ": Only referenced from navigation index".

(** The special-cased name of the navigation index. *)
Definition nav_index : string := "testing-navigation-index.md".

(** ** [_extract_links] *)

(** The groups of one match as the pair that [for text, target in matches]
    unpacks; the link pattern has two groups, so every match has two. *)
Definition as_link (groups : list string) : list link :=
  match groups with
  | [text; target] => [(text, target)]
  | _ => []
  end.

(** The body of the [try]: all matches of the pattern in [content], kept
    when the target ends in [.md]. *)
Definition extract (content : string) : list link :=
  filter (λ l : link, endswith l.2 ".md" = true)
    (findall link_pattern content ≫= as_link).

Definition _extract_links (f : md_file) (v : validator)
  : list link * validator :=
  match read_text f with
  | ReadOk content => (extract content, v)
  | ReadError e => ([], add_error (read_error_message (name f) e) v)
  end.

(** ** [validate_all_links] *)

(** [{f.name: f for f in self.markdown_files}] *)
Definition build_file_map (files : list md_file) : gmap string md_file :=
  foldl (λ m f, <[name f := f]> m) ∅ files.

(** The body of [for link_text, target_file in links]. *)
Definition check_link (file_map : gmap string md_file) (src : string)
    (acc : validator * gmap string (list (string * string))) (l : link)
  : validator * gmap string (list (string * string)) :=
  let '(v, incoming_links) := acc in
  let '(link_text, target_file) := l in
  match file_map !! target_file with
  | None =>
      (add_error (broken_link_message src target_file link_text) v,
       incoming_links)
  | Some _ =>
      let incoming_links :=
        match incoming_links !! target_file with
        | None => <[target_file := []]> incoming_links
        | Some _ => incoming_links
        end in
      (v, <[target_file :=
              incoming_links !!! target_file ++ [(src, link_text)]]>
            incoming_links)
  end.

(** The local variables of the first loop. *)
Record scan : Type := Scan {
  scan_self : validator;
  all_links : gmap string (list link);
  incoming_links : gmap string (list (string * string))
}.

(** The body of the first [for md_file in self.markdown_files]. *)
Definition scan_file (verbose : bool) (file_map : gmap string md_file)
    (sc : scan) (f : md_file) : scan :=
  let v := scan_self sc in
  let v := if verbose then print ("  📖 Checking " +:+ name f) v else v in
  let '(links, v) := _extract_links f v in
  let all := <[name f := links]> (all_links sc) in
  let '(v, inc) :=
    foldl (check_link file_map (name f)) (v, incoming_links sc) links in
  {| scan_self := v; all_links := all; incoming_links := inc |}.

(** The first loop as a whole. *)
Definition scan_files (verbose : bool) (v : validator) : scan :=
  foldl (scan_file verbose (build_file_map (markdown_files v)))
    {| scan_self := v; all_links := ∅; incoming_links := ∅ |}
    (markdown_files v).

(** The body of the second loop, the orphan check. *)
Definition check_orphan (incoming : gmap string (list (string * string)))
    (v : validator) (f : md_file) : validator :=
  let filename := name f in
  if decide (filename = nav_index) then v
  else
    match incoming !! filename with
    | None => add_warning (orphan_message filename) v
    | Some l =>
        if bool_decide (length l = 1) &&
           bool_decide (fst <$> l !! 0 = Some nav_index)
        then add_warning (nav_only_message filename) v
        else v
    end.

(** ** [_print_results] *)

Definition _print_results (verbose : bool) (v : validator) : validator :=
  let v := print (nl +:+ repeat_char "=" 60) v in
  let v := print "📊 VALIDATION RESULTS" v in
  let v := print (repeat_char "=" 60) v in
  let v :=
    match errors v with
    | [] => v
    | _ =>
        let v :=
          print (nl +:+ "❌ ERRORS (" +:+ pretty (length (errors v)) +:+ "):")
            v in
        print_all ((λ error, "  " +:+ error) <$> errors v) v
    end in
  let v :=
    match warnings v with
    | [] => v
    | _ =>
        let v :=
          print (nl +:+ "⚠️  WARNINGS (" +:+ pretty (length (warnings v))
                   +:+ "):") v in
        print_all ((λ warning, "  " +:+ warning) <$> warnings v) v
    end in
  let v :=
    match errors v, warnings v with
    | [], [] => print (nl +:+ "✅ All documentation links are valid!") v
    | [], _ =>
        print (nl +:+ "✅ No broken links found (" +:+
               pretty (length (warnings v)) +:+ " warnings)") v
    | _, _ =>
        print (nl +:+ "❌ Found " +:+ pretty (length (errors v)) +:+
               " errors and " +:+ pretty (length (warnings v)) +:+
               " warnings") v
    end in
  print (nl +:+ repeat_char "=" 60) v.

(** [validate_all_links(verbose)]: the success flag and the validator
    afterwards. *)
Definition validate_all_links (verbose : bool) (v : validator)
  : bool * validator :=
  let v := print ("🔍 Validating documentation links in " +:+ docs_dir v) v in
  let v :=
    print ("📄 Found " +:+ pretty (length (markdown_files v)) +:+
           " markdown files") v in
  let sc := scan_files verbose v in
  let v :=
    foldl (check_orphan (incoming_links sc)) (scan_self sc)
      (markdown_files v) in
  let v := _print_results verbose v in
  (bool_decide (length (errors v) = 0), v).

(** ** [generate_link_report] *)

(** The body of the first loop of the report, on [link_matrix] and the
    validator. *)
Definition add_to_matrix (acc : gmap string (list string) * validator)
    (f : md_file) : gmap string (list string) * validator :=
  let '(links, v) := _extract_links f acc.2 in
  (<[name f := links.*2]> acc.1, v).

(** The first loop of the report: [link_matrix], and the validator after
    the calls of [_extract_links]. *)
Definition build_link_matrix (v : validator)
  : gmap string (list string) * validator :=
  foldl add_to_matrix (∅, v) (markdown_files v).

(** One row of the table, for the key [source_file] of [link_matrix]. *)
Definition report_row (link_matrix : gmap string (list string))
    (source_file : string) : string :=
  let targets := link_matrix !!! source_file in
  match targets with
  | [] => "| " +:+ source_file +:+ " | *(no outgoing links)* |"
  | _ =>
      let targets_str :=
        join ", " (sorted (elements (list_to_set targets : gset string))) in
      "| " +:+ source_file +:+ " | " +:+ targets_str +:+ " |"
  end.

(** The list [report] just before it is joined. *)
Definition report_lines (v : validator) : list string * validator :=
  let report := ["# Documentation Link Report"; ""; "## Link Matrix"; ""] in
  let '(link_matrix, v) := build_link_matrix v in
  let report :=
    report ++ ["| From Document | Links To |";
               "|---------------|----------|"] in
  let report :=
    foldl (λ report source_file, report ++ [report_row link_matrix source_file])
      report (sorted (elements (dom link_matrix))) in
  (report, v).

Definition generate_link_report (v : validator) : string * validator :=
  let '(report, v) := report_lines v in
  (join nl report, v).

(** ** [main] *)

(** What the file system answers when the report is stored, that is to
    [open("docs/link-report.md", "w")] and [f.write(report)]: the report
    is written, or one of the two raises the exception [e] (kept as
    [str(e)]), leaving behind no file or a file with the content
    [left_behind]. *)
Inductive write_outcome : Type :=
  | WriteOk
  | WriteFails (e : string) (left_behind : option string).

(** What a run of the program leaves behind: the exit status, the text on
    standard output, in report mode the file written, and the exception,
    if any, that ended the process uncaught. *)
Record outcome : Type := Outcome {
  exit_code : Z;
  printed : list string;
  written : option (string * string);
  uncaught : option string
}.

(** [main()].  [argv] is [sys.argv]; [files] is the listing of [docs/*.md]
    seen from the project root, to which the source changes when it is
    started inside [docs]; [io] is the answer of the file system when the
    report is stored.  A return from [main] ends the process with
    status 0; [sys.exit(1)] ends it with status 1, and so does an
    exception that [main] does not catch. *)
Definition main (argv : list string) (files : list md_file)
    (io : write_outcome) : outcome :=
  let verbose := bool_decide ("--verbose" ∈ argv) || bool_decide ("-v" ∈ argv) in
  let validator := new_validator "docs" files [] in
  if bool_decide ("--report" ∈ argv) then
    let '(report, v) := generate_link_report validator in
    match io with
    | WriteOk =>
        let v := print "📄 Link report generated: docs/link-report.md" v in
        {| exit_code := 0; printed := stdout v;
           written := Some ("docs/link-report.md", report);
           uncaught := None |}
    | WriteFails e left_behind =>
        {| exit_code := 1; printed := stdout v;
           written := (λ content, ("docs/link-report.md", content))
                        <$> left_behind;
           uncaught := Some e |}
    end
  else
    let '(success, v) := validate_all_links verbose validator in
    if negb success then
      let v :=
        print_all
          [nl +:+ "💡 To fix broken links:";
           "  1. Check that referenced files exist in docs/";
           "  2. Verify file names match exactly (case-sensitive)";
           "  3. Update links to use correct file names";
           "  4. Consider adding missing cross-references"] v in
      {| exit_code := 1; printed := stdout v; written := None;
         uncaught := None |}
    else
      let v :=
        print (nl +:+ "🎉 All documentation links validated successfully!") v in
      {| exit_code := 0; printed := stdout v; written := None;
         uncaught := None |}.

(** ** Vocabulary of the specification *)

(** The known-document set, as the list of the names in the directory. *)
Definition names (files : list md_file) : list string := name <$> files.

(** The links extracted from a file: those of its text, none when the
    file cannot be read. *)
Definition links_of (f : md_file) : list link :=
  match read_text f with
  | ReadOk content => extract content
  | ReadError _ => []
  end.

(** The Errors that one file contributes to a run over [files]: its read
    failure, or one message for each of its links, in order, whose target
    is not a known document. *)
Definition file_errors (files : list md_file) (f : md_file) : list string :=
  match read_text f with
  | ReadOk content =>
      (λ l : link, broken_link_message (name f) l.2 l.1)
        <$> filter (λ l : link, l.2 ∉ names files) (extract content)
  | ReadError e => [read_error_message (name f) e]
  end.

(** Every broken link of the directory, as (source, (text, target)). *)
Definition broken_links (files : list md_file) : list (string * link) :=
  files ≫= λ f,
    (λ l : link, (name f, l))
      <$> filter (λ l : link, l.2 ∉ names files) (links_of f).

(** Whether a file can be read. *)
Definition readable (f : md_file) : bool :=
  match read_text f with
  | ReadOk _ => true
  | ReadError _ => false
  end.

(** The files that cannot be read. *)
Definition unreadable (files : list md_file) : list md_file :=
  filter (λ f, readable f = false) files.

(** All (source, display text) pairs of the links that target [t], over
    all files, in order. *)
Definition incoming_of (files : list md_file) (t : string)
  : list (string * string) :=
  files ≫= λ f,
    (λ l : link, (name f, l.1)) <$> filter (λ l : link, l.2 = t) (links_of f).

(** The same, leaving out the links of the document [t] to itself. *)
Definition incoming_from_others (files : list md_file) (t : string)
  : list (string * string) :=
  filter (λ f, name f ≠ t) files ≫= λ f,
    (λ l : link, (name f, l.1)) <$> filter (λ l : link, l.2 = t) (links_of f).

(** The entry that the incoming-link index is expected to hold for [t]. *)
Definition expected_entry (files : list md_file) (t : string)
  : option (list (string * string)) :=
  if decide (t ∈ names files) then
    match incoming_of files t with
    | [] => None
    | l => Some l
    end
  else None.

(** A warning that is about the document [n]. *)
Definition about (n : string) (w : string) : Prop :=
  w = orphan_message n ∨ w = nav_only_message n.

Global Instance about_dec (n w : string) : Decision (about n w).
Proof. unfold about. apply _. Defined.

(** [row] is a table row for [f]: the name of [f], then its distinct
    targets in ascending order joined by commas, or the placeholder. *)
Definition row_for (f : md_file) (row : string) : Prop :=
  ∃ ts : list string,
    Sorted String.le ts ∧ NoDup ts ∧
    (∀ t, t ∈ ts ↔ t ∈ (links_of f).*2) ∧
    row = match ts with
          | [] => "| " +:+ name f +:+ " | *(no outgoing links)* |"
          | _ => "| " +:+ name f +:+ " | " +:+ join ", " ts +:+ " |"
          end.

(** The six lines that precede the rows of the report. *)
Definition report_header : list string :=
  ["# Documentation Link Report"; ""; "## Link Matrix"; "";
   "| From Document | Links To |"; "|---------------|----------|"].

(** ** Auxiliary notions for the proofs *)

(** A validator with [es] appended to its Errors. *)
Definition record_errors (es : list string) (v : validator) : validator :=
  foldl (λ v msg, add_error msg v) v es.

(** A validator with [ws] appended to its Warnings. *)
Definition record_warnings (ws : list string) (v : validator) : validator :=
  foldl (λ v msg, add_warning msg v) v ws.

(** A validator whose Warnings were replaced by [ws]. *)
Definition preset_warnings (ws : list string) (v : validator) : validator :=
  {| docs_dir := docs_dir v; markdown_files := markdown_files v;
     errors := errors v; warnings := ws; stdout := stdout v |}.

(** The progress line of the first loop, printed when [verbose] is set. *)
Definition announce (verbose : bool) (f : md_file) (v : validator)
  : validator :=
  if verbose then print ("  📖 Checking " +:+ name f) v else v.

(** The broken-link messages of the links [ls] of [src], against the
    dictionary [file_map]. *)
Definition broken_messages (file_map : gmap string md_file) (src : string)
    (ls : list link) : list string :=
  (λ l : link, broken_link_message src l.2 l.1)
    <$> filter (λ l : link, file_map !! l.2 = None) ls.

(** The Errors of one file against the dictionary [file_map]. *)
Definition file_errors_in (file_map : gmap string md_file) (f : md_file)
  : list string :=
  match read_text f with
  | ReadOk content => broken_messages file_map (name f) (extract content)
  | ReadError e => [read_error_message (name f) e]
  end.

(** Appending [new] pairs to an entry of the index. *)
Definition add_entries (o : option (list (string * string)))
    (new : list (string * string)) : option (list (string * string)) :=
  match new with
  | [] => o
  | _ => Some (default [] o ++ new)
  end.

(** The pairs that the links [ls] of [src] add under the target [t]. *)
Definition entries_from (src t : string) (ls : list link)
  : list (string * string) :=
  (λ l : link, (src, l.1)) <$> filter (λ l : link, l.2 = t) ls.

(** The Warnings of one file against the index [incoming]. *)
Definition file_warnings (incoming : gmap string (list (string * string)))
    (f : md_file) : list string :=
  if decide (name f = nav_index) then []
  else
    match incoming !! name f with
    | None => [orphan_message (name f)]
    | Some l =>
        if bool_decide (length l = 1) &&
           bool_decide (fst <$> l !! 0 = Some nav_index)
        then [nav_only_message (name f)]
        else []
    end.

(** ** Example directories *)

(** The first scenario of the specification. *)
Definition docs_abc : list md_file :=
  [MdFile "a.md" (ReadOk "See [the b page](b.md).");
   MdFile "b.md" (ReadOk "Nothing here.");
   MdFile "c.md" (ReadOk "Nothing here either.")].

(** One document that cannot be read and no link at all. *)
Definition docs_unreadable : list md_file :=
  [MdFile "a.md" (ReadError "'utf-8' codec can't decode byte 0xff")].

(** One document whose only link points to itself. *)
Definition docs_self_link : list md_file :=
  [MdFile "a.md" (ReadOk "Back to [the top](a.md#top).")].

(** A directory with a broken link, an unreadable file, a repeated link
    and the navigation index. *)
Definition docs_mixed : list md_file :=
  [MdFile "a.md"
     (ReadOk "see [b](b.md) and [b again](b.md#x), [m](missing.md)");
   MdFile "b.md" (ReadOk "");
   MdFile "c.md" (ReadError "Permission denied");
   MdFile "testing-navigation-index.md" (ReadOk "[a](a.md) [b](b.md)")].

(** ** Further vocabulary *)

(** The read failures of a directory, one message per unreadable file. *)
Definition read_errors (files : list md_file) : list string :=
  files ≫= λ f,
    match read_text f with
    | ReadOk _ => []
    | ReadError e => [read_error_message (name f) e]
    end.

(** The progress line that a verbose run prints for a document. *)
Definition progress_line (f : md_file) : string :=
  "  📖 Checking " +:+ name f.

(** The two lines that open the output of [validate_all_links]. *)
Definition opening_lines (v : validator) : list string :=
  ["🔍 Validating documentation links in " +:+ docs_dir v;
   "📄 Found " +:+ pretty (length (markdown_files v)) +:+ " markdown files"].

(** The remediation hints that [main] prints before [sys.exit(1)]. *)
Definition remediation_hints : list string :=
  [nl +:+ "💡 To fix broken links:";
   "  1. Check that referenced files exist in docs/";
   "  2. Verify file names match exactly (case-sensitive)";
   "  3. Update links to use correct file names";
   "  4. Consider adding missing cross-references"].

(** The lines of the results block for the Errors [es] and the Warnings
    [ws]: banner, the Errors, the Warnings, the status line, the rule. *)
Definition summary_lines (es ws : list string) : list string :=
  [nl +:+ repeat_char "=" 60; "📊 VALIDATION RESULTS"; repeat_char "=" 60]
  ++ match es with
     | [] => []
     | _ =>
         (nl +:+ "❌ ERRORS (" +:+ pretty (length es) +:+ "):")
           :: ((λ error, "  " +:+ error) <$> es)
     end
  ++ match ws with
     | [] => []
     | _ =>
         (nl +:+ "⚠️  WARNINGS (" +:+ pretty (length ws) +:+ "):")
           :: ((λ warning, "  " +:+ warning) <$> ws)
     end
  ++ [match es, ws with
      | [], [] => nl +:+ "✅ All documentation links are valid!"
      | [], _ =>
          nl +:+ "✅ No broken links found (" +:+ pretty (length ws) +:+
          " warnings)"
      | _, _ =>
          nl +:+ "❌ Found " +:+ pretty (length es) +:+ " errors and " +:+
          pretty (length ws) +:+ " warnings"
      end]
  ++ [nl +:+ repeat_char "=" 60].

(** The matcher states in which a greedy run over the characters [l],
    standing before [rest], has given back one character or more: the
    shortest remainder first. *)
Fixpoint longer (l rest : list ascii) (caps : list (list ascii))
  : list Re.mstate :=
  match l with
  | [] => []
  | a :: l' => longer l' rest caps ++ [(a :: l' ++ rest, caps)]
  end.

(** [x] is the preferred outcome of matching [r] from [st]. *)
Definition first_match (r : Re.regex) (st x : Re.mstate) : Prop :=
  ∃ more, Re.run r st = x :: more.

(** * Proofs *)

(** Closed decidable side conditions are settled by evaluation. *)
Ltac by_computation :=
  match goal with
  | |- ?P => apply (bool_decide_unpack P); vm_compute; exact I
  end.

(** ** The accumulators of the validator *)

Section Accumulators.
Implicit Types (v : validator) (es ws : list string).

Lemma errors_record_errors es v :
  errors (record_errors es v) = errors v ++ es.
Proof.
  revert v. induction es as [|m es IH]; intros v; simpl.
  - by rewrite app_nil_r.
  - unfold record_errors in *. simpl. rewrite IH. simpl.
    by rewrite <- app_assoc.
Qed.

Lemma warnings_record_errors es v :
  warnings (record_errors es v) = warnings v.
Proof.
  revert v. induction es as [|m es IH]; intros v; [done|].
  unfold record_errors in *. simpl. by rewrite IH.
Qed.

Lemma files_record_errors es v :
  markdown_files (record_errors es v) = markdown_files v.
Proof.
  revert v. induction es as [|m es IH]; intros v; [done|].
  unfold record_errors in *. simpl. by rewrite IH.
Qed.

Lemma record_errors_app es es' v :
  record_errors (es ++ es') v = record_errors es' (record_errors es v).
Proof. unfold record_errors. by rewrite foldl_app. Qed.

Lemma errors_record_warnings ws v :
  errors (record_warnings ws v) = errors v.
Proof.
  revert v. induction ws as [|m ws IH]; intros v; [done|].
  unfold record_warnings in *. simpl. by rewrite IH.
Qed.

Lemma warnings_record_warnings ws v :
  warnings (record_warnings ws v) = warnings v ++ ws.
Proof.
  revert v. induction ws as [|m ws IH]; intros v; simpl.
  - by rewrite app_nil_r.
  - unfold record_warnings in *. simpl. rewrite IH. simpl.
    by rewrite <- app_assoc.
Qed.

Lemma record_warnings_app ws ws' v :
  record_warnings (ws ++ ws') v
  = record_warnings ws' (record_warnings ws v).
Proof. unfold record_warnings. by rewrite foldl_app. Qed.

Lemma errors_print_all ls v : errors (print_all ls v) = errors v.
Proof.
  revert v. induction ls as [|m ls IH]; intros v; [done|].
  unfold print_all in *. simpl. by rewrite IH.
Qed.

Lemma warnings_print_all ls v : warnings (print_all ls v) = warnings v.
Proof.
  revert v. induction ls as [|m ls IH]; intros v; [done|].
  unfold print_all in *. simpl. by rewrite IH.
Qed.

Lemma errors_print_results verbose v :
  errors (_print_results verbose v) = errors v.
Proof.
  unfold _print_results. cbv zeta.
  repeat match goal with
  | |- context [match ?x with [] => _ | _ :: _ => _ end] => destruct x
  end; repeat (simpl; rewrite ?errors_print_all); done.
Qed.

Lemma warnings_print_results verbose v :
  warnings (_print_results verbose v) = warnings v.
Proof.
  unfold _print_results. cbv zeta.
  repeat match goal with
  | |- context [match ?x with [] => _ | _ :: _ => _ end] => destruct x
  end; repeat (simpl; rewrite ?warnings_print_all); done.
Qed.
End Accumulators.

(** ** The dictionary of known documents *)

Lemma build_file_map_from (files : list md_file) (m : gmap string md_file)
    (n : string) :
  is_Some (foldl (λ m f, <[name f := f]> m) m files !! n)
  ↔ is_Some (m !! n) ∨ n ∈ names files.
Proof.
  revert m. induction files as [|f files IH]; intros m; simpl.
  - unfold names. rewrite elem_of_nil. tauto.
  - rewrite IH. unfold names. rewrite ?fmap_cons, elem_of_cons.
    destruct (decide (n = name f)) as [->|Hne].
    + rewrite lookup_insert_eq. split; [auto|]. intros _. left. by eexists.
    + rewrite lookup_insert_ne by done. tauto.
Qed.

Lemma build_file_map_known (files : list md_file) (n : string) :
  is_Some (build_file_map files !! n) ↔ n ∈ names files.
Proof.
  unfold build_file_map. rewrite build_file_map_from, lookup_empty.
  split; [intros [[? [=]]|]; done | auto].
Qed.

Lemma build_file_map_unknown (files : list md_file) (n : string) :
  build_file_map files !! n = None ↔ n ∉ names files.
Proof.
  rewrite <- build_file_map_known, eq_None_not_Some. done.
Qed.

(** ** The loop over the links of one document *)

Section CheckLinks.
Variable file_map : gmap string md_file.
Variable src : string.

Lemma add_entries_app o new new' :
  add_entries (add_entries o new) new' = add_entries o (new ++ new').
Proof.
  destruct new as [|x new]; [done|].
  destruct new' as [|y new']; simpl.
  - by rewrite app_nil_r.
  - by rewrite <- app_assoc.
Qed.

Lemma check_links_self (ls : list link) v inc :
  (foldl (check_link file_map src) (v, inc) ls).1
  = record_errors (broken_messages file_map src ls) v.
Proof.
  revert v inc. induction ls as [|[text target] ls IH]; intros v inc.
  - done.
  - simpl. unfold broken_messages. rewrite filter_cons. simpl.
    destruct (file_map !! target) eqn:Hk.
    + rewrite decide_False by done. apply IH.
    + rewrite decide_True by done. rewrite fmap_cons. simpl. apply IH.
Qed.

Lemma check_links_known (ls : list link) v inc t :
  is_Some (file_map !! t) →
  (foldl (check_link file_map src) (v, inc) ls).2 !! t
  = add_entries (inc !! t) (entries_from src t ls).
Proof.
  intros Hk. revert v inc.
  induction ls as [|[text target] ls IH]; intros v inc; [done|].
  simpl. unfold entries_from. rewrite filter_cons. simpl.
  destruct (file_map !! target) eqn:Hkt.
  - rewrite IH. destruct (decide (target = t)) as [->|Hne].
    + rewrite lookup_insert_eq, fmap_cons. simpl.
      fold (entries_from src t ls).
      destruct (inc !! t) as [l|] eqn:Hl.
      * rewrite lookup_total_alt, Hl. simpl.
        destruct (entries_from src t ls); simpl; [done|].
        by rewrite <- app_assoc.
      * rewrite lookup_total_alt, lookup_insert_eq. simpl.
        destruct (entries_from src t ls); done.
    + rewrite lookup_insert_ne by done.
      destruct (inc !! target); [done|]. by rewrite lookup_insert_ne.
  - destruct (decide (target = t)) as [->|Hne].
    + rewrite Hkt in Hk. by destruct Hk.
    + apply IH.
Qed.

Lemma check_links_unknown (ls : list link) v inc t :
  file_map !! t = None →
  (foldl (check_link file_map src) (v, inc) ls).2 !! t = inc !! t.
Proof.
  intros Hk. revert v inc.
  induction ls as [|[text target] ls IH]; intros v inc; [done|].
  simpl. destruct (file_map !! target) eqn:Hkt; [|apply IH].
  rewrite IH. assert (target ≠ t) by congruence.
  rewrite lookup_insert_ne by done.
  destruct (inc !! target); [done|]. by rewrite lookup_insert_ne.
Qed.
End CheckLinks.

(** ** The loop over the documents *)

Section Scan.
Variable verbose : bool.
Variable file_map : gmap string md_file.

Lemma scan_file_self sc f :
  scan_self (scan_file verbose file_map sc f)
  = record_errors (file_errors_in file_map f) (announce verbose f (scan_self sc)).
Proof.
  unfold scan_file, _extract_links, file_errors_in, announce.
  destruct (read_text f) as [content|e].
  - match goal with
    | |- context [foldl ?g ?a ?l] =>
        pose proof (check_links_self file_map (name f) l a.1 a.2) as Hs;
        destruct (foldl g a l) as [v' inc'] eqn:Hf
    end.
    simpl in *. rewrite Hf in Hs. exact Hs.
  - simpl. by destruct verbose.
Qed.

Lemma scan_file_all_links sc f :
  all_links (scan_file verbose file_map sc f)
  = <[name f := links_of f]> (all_links sc).
Proof.
  unfold scan_file, _extract_links, links_of.
  destruct (read_text f) as [content|e]; [|done].
  simpl. destruct (foldl (check_link _ _) _ _). reflexivity.
Qed.

Lemma scan_file_incoming sc f :
  ∃ v, incoming_links (scan_file verbose file_map sc f)
       = (foldl (check_link file_map (name f)) (v, incoming_links sc)
            (links_of f)).2.
Proof.
  unfold scan_file, _extract_links, links_of.
  destruct (read_text f) as [content|e].
  - exists (announce verbose f (scan_self sc)). unfold announce. simpl.
    destruct (foldl (check_link _ _) _ _). reflexivity.
  - exists (scan_self sc). reflexivity.
Qed.

Lemma errors_announce f v : errors (announce verbose f v) = errors v.
Proof. unfold announce. by destruct verbose. Qed.

Lemma warnings_announce f v : warnings (announce verbose f v) = warnings v.
Proof. unfold announce. by destruct verbose. Qed.

Lemma files_announce f v : markdown_files (announce verbose f v) = markdown_files v.
Proof. unfold announce. by destruct verbose. Qed.

Lemma scan_errors fs sc :
  errors (scan_self (foldl (scan_file verbose file_map) sc fs))
  = errors (scan_self sc) ++ (fs ≫= file_errors_in file_map).
Proof.
  revert sc. induction fs as [|f fs IH]; intros sc; simpl.
  - by rewrite app_nil_r.
  - rewrite IH, scan_file_self, errors_record_errors, errors_announce.
    by rewrite <- app_assoc.
Qed.

Lemma scan_warnings fs sc :
  warnings (scan_self (foldl (scan_file verbose file_map) sc fs))
  = warnings (scan_self sc).
Proof.
  revert sc. induction fs as [|f fs IH]; intros sc; simpl; [done|].
  by rewrite IH, scan_file_self, warnings_record_errors, warnings_announce.
Qed.

Lemma scan_incoming_known fs sc t :
  is_Some (file_map !! t) →
  incoming_links (foldl (scan_file verbose file_map) sc fs) !! t
  = add_entries (incoming_links sc !! t)
      (fs ≫= λ f, entries_from (name f) t (links_of f)).
Proof.
  intros Hk. revert sc. induction fs as [|f fs IH]; intros sc; [done|].
  simpl. rewrite IH.
  destruct (scan_file_incoming sc f) as [v ->].
  by rewrite check_links_known, add_entries_app.
Qed.

Lemma scan_incoming_unknown fs sc t :
  file_map !! t = None →
  incoming_links (foldl (scan_file verbose file_map) sc fs) !! t
  = incoming_links sc !! t.
Proof.
  intros Hk. revert sc. induction fs as [|f fs IH]; intros sc; [done|].
  simpl. rewrite IH.
  destruct (scan_file_incoming sc f) as [v ->].
  by rewrite check_links_unknown.
Qed.

Lemma scan_all_links_other fs sc n :
  n ∉ names fs →
  all_links (foldl (scan_file verbose file_map) sc fs) !! n
  = all_links sc !! n.
Proof.
  revert sc. induction fs as [|f fs IH]; intros sc Hn; [done|].
  unfold names in Hn. rewrite fmap_cons, not_elem_of_cons in Hn.
  destruct Hn as [Hne Hn]. simpl. rewrite IH by done.
  rewrite scan_file_all_links. by rewrite lookup_insert_ne.
Qed.

Lemma scan_all_links_at pre f post sc :
  name f ∉ names post →
  all_links (foldl (scan_file verbose file_map) sc (pre ++ f :: post))
    !! name f
  = Some (links_of f).
Proof.
  intros Hn. rewrite foldl_app. simpl.
  rewrite scan_all_links_other by done.
  by rewrite scan_file_all_links, lookup_insert_eq.
Qed.
End Scan.

(** ** The first loop against the vocabulary of the specification *)

Lemma file_errors_in_known (files : list md_file) (f : md_file) :
  file_errors_in (build_file_map files) f = file_errors files f.
Proof.
  unfold file_errors_in, file_errors, broken_messages.
  destruct (read_text f) as [content|e]; [|done].
  f_equal. apply list_filter_iff. intros l.
  apply build_file_map_unknown.
Qed.

Lemma file_errors_in_known_all (files fs : list md_file) :
  fs ≫= file_errors_in (build_file_map files) = fs ≫= file_errors files.
Proof.
  induction fs as [|f fs IH]; [done|].
  by rewrite !bind_cons, IH, file_errors_in_known.
Qed.

Lemma scan_files_errors verbose v :
  errors (scan_self (scan_files verbose v))
  = errors v ++ (markdown_files v ≫= file_errors (markdown_files v)).
Proof.
  unfold scan_files. rewrite scan_errors. simpl. f_equal.
  apply file_errors_in_known_all.
Qed.

Lemma scan_files_warnings verbose v :
  warnings (scan_self (scan_files verbose v)) = warnings v.
Proof. unfold scan_files. rewrite scan_warnings. reflexivity. Qed.

Lemma scan_files_incoming verbose v t :
  incoming_links (scan_files verbose v) !! t
  = expected_entry (markdown_files v) t.
Proof.
  unfold scan_files, expected_entry. case_decide as Hk.
  - rewrite scan_incoming_known by by apply build_file_map_known.
    simpl. rewrite lookup_empty.
    change (markdown_files v ≫= _) with (incoming_of (markdown_files v) t).
    by destruct (incoming_of (markdown_files v) t).
  - rewrite scan_incoming_unknown by by apply build_file_map_unknown.
    apply lookup_empty.
Qed.

Lemma scan_files_incoming_same verbose verbose' v v' :
  markdown_files v = markdown_files v' →
  incoming_links (scan_files verbose v)
  = incoming_links (scan_files verbose' v').
Proof.
  intros Hf. apply map_eq. intros t.
  by rewrite !scan_files_incoming, Hf.
Qed.

(** ** The orphan check *)

Lemma check_orphans_fold incoming fs v :
  foldl (check_orphan incoming) v fs
  = record_warnings (fs ≫= file_warnings incoming) v.
Proof.
  revert v. induction fs as [|f fs IH]; intros v; [done|].
  rewrite bind_cons, record_warnings_app. simpl. rewrite IH. f_equal.
  unfold check_orphan, file_warnings.
  case_decide; [done|].
  destruct (incoming !! name f) as [l|]; [|done].
  by destruct (_ && _).
Qed.

(** ** [validate_all_links] as a whole *)

Lemma validate_errors verbose v :
  errors (validate_all_links verbose v).2
  = errors v ++ (markdown_files v ≫= file_errors (markdown_files v)).
Proof.
  unfold validate_all_links. cbv zeta. cbn [fst snd].
  rewrite errors_print_results, check_orphans_fold, errors_record_warnings.
  by rewrite scan_files_errors.
Qed.

Lemma validate_warnings verbose v :
  warnings (validate_all_links verbose v).2
  = warnings v ++
    (markdown_files v ≫=
       file_warnings (incoming_links (scan_files verbose v))).
Proof.
  unfold validate_all_links. cbv zeta. cbn [fst snd].
  rewrite warnings_print_results, check_orphans_fold.
  rewrite warnings_record_warnings, scan_files_warnings. simpl.
  do 3 f_equal. by apply scan_files_incoming_same.
Qed.

Lemma validate_success verbose v :
  (validate_all_links verbose v).1
  = bool_decide (errors (validate_all_links verbose v).2 = []).
Proof.
  unfold validate_all_links. cbv zeta. cbn [fst snd].
  apply bool_decide_ext. apply length_zero_iff_nil.
Qed.

Lemma no_errors_iff (files fs : list md_file) :
  fs ≫= file_errors files = []
  ↔ (fs ≫= λ f,
       (λ l : link, (name f, l))
         <$> filter (λ l : link, l.2 ∉ names files) (links_of f)) = []
    ∧ filter (λ f, readable f = false) fs = [].
Proof.
  induction fs as [|f fs IH]; [done|].
  rewrite !bind_cons.
  destruct (read_text f) as [content|e] eqn:Hr.
  - rewrite filter_cons_False by (unfold readable; by rewrite Hr).
    unfold file_errors at 1, links_of at 1. rewrite Hr.
    destruct (filter _ (extract content)) as [|l ls]; simpl.
    + exact IH.
    + split; [done|]. intros [[=] _].
  - rewrite filter_cons_True by (unfold readable; by rewrite Hr).
    unfold file_errors at 1. rewrite Hr.
    split; [done|]. intros [_ [=]].
Qed.

(** ** Claims about the success flag and the exit status *)

(** C1.  On a freshly built validator, [validate_all_links] returns true
    exactly when the run has recorded no Error; and the returned flag is
    the same whatever Warnings the validator holds. *)
Theorem validate_all_links_true_iff_no_error
    (verbose : bool) (dir : string) (files : list md_file)
    (out : list string) :
  let run := validate_all_links verbose (new_validator dir files out) in
  (run.1 = true ↔ errors run.2 = []) ∧
  (∀ ws : list string,
     (validate_all_links verbose
        (preset_warnings ws (new_validator dir files out))).1 = run.1).
Proof.
  cbv zeta. split.
  - rewrite validate_success. apply bool_decide_eq_true.
  - intros ws. rewrite !validate_success. apply bool_decide_ext.
    by rewrite !validate_errors.
Qed.

(** The scenario of the specification with a warning and no error: the
    run succeeds although a Warning was recorded. *)
Example validate_abc_succeeds_with_warning :
  let run := validate_all_links false (new_validator "docs" docs_abc []) in
  run.1 = true ∧ errors run.2 = [] ∧
  warnings run.2 = [orphan_message "a.md"; orphan_message "c.md"].
Proof. vm_compute. done. Qed.

(** C2, as stated, fails: with no broken link at all, a document that
    cannot be read makes the process exit with status 1. *)
Lemma exit_code_unreadable_without_broken_link :
  broken_links docs_unreadable = [] ∧
  exit_code (main ["docs/validate-links.py"] docs_unreadable WriteOk) = 1%Z.
Proof. vm_compute. done. Qed.

(** C2, amended.  Without [--report], the process exits with status 0
    when no broken link was detected and every document could be read,
    and with status 1 otherwise. *)
Theorem exit_code_zero_iff_no_error
    (argv : list string) (files : list md_file) (io : write_outcome) :
  "--report" ∉ argv →
  exit_code (main argv files io)
  = if decide (broken_links files = [] ∧ unreadable files = [])
    then 0%Z else 1%Z.
Proof.
  intros Hr. unfold main. rewrite (bool_decide_eq_false_2 _ Hr).
  set (verbose := _ || _).
  pose proof (validate_success verbose (new_validator "docs" files [])) as Hs.
  pose proof (validate_errors verbose (new_validator "docs" files [])) as He.
  destruct (validate_all_links verbose _) as [success v]. simpl in *.
  rewrite He in Hs. subst success.
  case_decide as Hd.
  - apply no_errors_iff in Hd. by rewrite bool_decide_eq_true_2.
  - rewrite bool_decide_eq_false_2; [done|].
    intros Hn. by apply Hd, no_errors_iff.
Qed.

Lemma exit_code_zero_iff_no_error_witness :
  exit_code (main ["docs/validate-links.py"; "--verbose"] docs_abc WriteOk)
  = 0%Z.
Proof.
  apply (exit_code_zero_iff_no_error
           ["docs/validate-links.py"; "--verbose"] docs_abc WriteOk).
  by_computation.
Defined.

(** ** Claims about the Errors and the incoming-link index *)

(** C4.  A link (text, target) extracted from a document of the directory
    whose target is not a known document contributes exactly one Error:
    the cross mark, the name of the document, [: Broken link to], the
    target between quotes and, in parentheses, [text:] and the display
    text between quotes.  The Errors before and after it are those of
    the earlier and of the later links and documents. *)
Theorem broken_link_recorded_once
    (verbose : bool) (dir : string) (out : list string)
    (pre post : list md_file) (f : md_file) (content : string)
    (before after : list link) (text target : string) :
  let files := pre ++ f :: post in
  read_text f = ReadOk content →
  extract content = before ++ (text, target) :: after →
  target ∉ names files →
  errors (validate_all_links verbose (new_validator dir files out)).2
  = (pre ≫= file_errors files)
    ++ ((λ l : link, broken_link_message (name f) l.2 l.1)
          <$> filter (λ l : link, l.2 ∉ names files) before)
    ++ ["❌ " +:+ name f +:+ ": Broken link to '" +:+ target +:+
        "' (text: '" +:+ text +:+ "')"]
    ++ ((λ l : link, broken_link_message (name f) l.2 l.1)
          <$> filter (λ l : link, l.2 ∉ names files) after)
    ++ (post ≫= file_errors files).
Proof.
  intros files Hread Hlinks Hunknown.
  rewrite validate_errors.
  change (markdown_files (new_validator dir files out)) with files.
  change (errors (new_validator dir files out)) with (@nil string).
  rewrite app_nil_l.
  assert (file_errors files f
          = ((λ l : link, broken_link_message (name f) l.2 l.1)
               <$> filter (λ l : link, l.2 ∉ names files) before)
            ++ [broken_link_message (name f) target text]
            ++ ((λ l : link, broken_link_message (name f) l.2 l.1)
                  <$> filter (λ l : link, l.2 ∉ names files) after))
    as Hf.
  { unfold file_errors. rewrite Hread, Hlinks.
    rewrite filter_app, filter_cons_True by done.
    by rewrite fmap_app, fmap_cons. }
  subst files. rewrite bind_app, bind_cons, Hf.
  unfold broken_link_message at 2.
  by rewrite <- !app_assoc.
Qed.

Lemma broken_link_recorded_once_witness :
  errors (validate_all_links false (new_validator "docs" docs_mixed [])).2
  = ["❌ a.md: Broken link to 'missing.md' (text: 'm')";
     "❌ Error reading c.md: Permission denied"].
Proof.
  apply (broken_link_recorded_once false "docs" []
           [] (drop 1 docs_mixed)
           (MdFile "a.md"
              (ReadOk "see [b](b.md) and [b again](b.md#x), [m](missing.md)"))
           "see [b](b.md) and [b again](b.md#x), [m](missing.md)"
           [("b", "b.md"); ("b again", "b.md")] [] "m" "missing.md").
  - reflexivity.
  - vm_compute. reflexivity.
  - by_computation.
Defined.

(** C5.  After the loop over the documents, the entry of the
    incoming-link index for any name is the sequence of the (source,
    display text) pairs of all extracted links with that target, in
    order and with repetitions kept, when the name is a known document
    that is linked to; otherwise there is no entry. *)
Theorem incoming_index_complete
    (verbose : bool) (dir : string) (files : list md_file)
    (out : list string) (t : string) :
  incoming_links (scan_files verbose (new_validator dir files out)) !! t
  = expected_entry files t.
Proof. by rewrite scan_files_incoming. Qed.

Example incoming_index_mixed :
  incoming_links (scan_files false (new_validator "docs" docs_mixed []))
    !! "b.md"
  = Some [("a.md", "b"); ("a.md", "b again");
          ("testing-navigation-index.md", "b")].
Proof. vm_compute. reflexivity. Qed.

(** C10.  Every key of the incoming-link index is a known document. *)
Theorem incoming_index_keys_known
    (verbose : bool) (dir : string) (files : list md_file)
    (out : list string) (t : string) :
  is_Some
    (incoming_links (scan_files verbose (new_validator dir files out)) !! t) →
  t ∈ names files.
Proof.
  rewrite scan_files_incoming. unfold expected_entry. simpl.
  case_decide; [done|]. by intros [? [=]].
Qed.

Lemma incoming_index_keys_known_witness : "b.md" ∈ names docs_mixed.
Proof.
  apply (incoming_index_keys_known false "docs" docs_mixed [] "b.md").
  by_computation.
Defined.

(** ** Documents that cannot be read *)

Lemma scan_all_links_dom verbose file_map fs sc n :
  is_Some (all_links (foldl (scan_file verbose file_map) sc fs) !! n)
  ↔ is_Some (all_links sc !! n) ∨ n ∈ names fs.
Proof.
  revert sc. induction fs as [|f fs IH]; intros sc.
  - unfold names. simpl. rewrite elem_of_nil. tauto.
  - simpl. rewrite IH, scan_file_all_links. unfold names.
    rewrite ?fmap_cons, elem_of_cons.
    destruct (decide (n = name f)) as [->|Hne].
    + rewrite lookup_insert_eq. split; [auto|]. intros _. left. by eexists.
    + rewrite lookup_insert_ne by done. tauto.
Qed.

Lemma scan_all_links_unique verbose file_map fs sc g :
  NoDup (names fs) → g ∈ fs →
  all_links (foldl (scan_file verbose file_map) sc fs) !! name g
  = Some (links_of g).
Proof.
  intros Hnd Hg. apply list_elem_of_split in Hg as (l1 & l2 & ->).
  apply scan_all_links_at.
  unfold names in Hnd. rewrite fmap_app, fmap_cons in Hnd.
  apply NoDup_app in Hnd as (_ & _ & Hnd).
  by apply NoDup_cons in Hnd as [Hnd _].
Qed.

(** C7.  A document whose text cannot be read yields an empty list of
    links and exactly one Error, which describes the read failure: the
    cross mark, [Error reading], the name of the document, a colon and
    the text of the exception.  The run still extracts and validates the
    links of every other document: the Errors of the documents before
    and after it are all recorded, every document has its entry in
    [all_links], and the incoming-link index is complete. *)
Theorem unreadable_document_is_one_error
    (verbose : bool) (dir : string) (out : list string)
    (pre post : list md_file) (f : md_file) (e : string) :
  let files := pre ++ f :: post in
  let v := new_validator dir files out in
  read_text f = ReadError e →
  _extract_links f v
  = ([], add_error ("❌ Error reading " +:+ name f +:+ ": " +:+ e) v) ∧
  errors (validate_all_links verbose v).2
  = (pre ≫= file_errors files)
    ++ ("❌ Error reading " +:+ name f +:+ ": " +:+ e)
       :: (post ≫= file_errors files) ∧
  (∀ g, g ∈ files → is_Some (all_links (scan_files verbose v) !! name g)) ∧
  (NoDup (names files) →
   ∀ g, g ∈ files →
        all_links (scan_files verbose v) !! name g = Some (links_of g)) ∧
  (∀ t, incoming_links (scan_files verbose v) !! t = expected_entry files t).
Proof.
  intros files v Hread. repeat split.
  - unfold _extract_links. by rewrite Hread.
  - rewrite validate_errors.
    change (markdown_files v) with files.
    change (errors v) with (@nil string). rewrite app_nil_l.
    assert (file_errors files f
            = ["❌ Error reading " +:+ name f +:+ ": " +:+ e]) as Hf.
    { unfold file_errors. by rewrite Hread. }
    subst files. by rewrite bind_app, bind_cons, Hf.
  - intros g Hg. unfold scan_files. apply scan_all_links_dom. right.
    unfold names. by apply list_elem_of_fmap_2.
  - intros Hnd g Hg. unfold scan_files. by apply scan_all_links_unique.
  - intros t. by rewrite scan_files_incoming.
Qed.

Lemma unreadable_document_is_one_error_witness :
  _extract_links (MdFile "c.md" (ReadError "Permission denied"))
    (new_validator "docs" docs_mixed [])
  = ([], add_error "❌ Error reading c.md: Permission denied"
           (new_validator "docs" docs_mixed [])) ∧
  errors (validate_all_links true (new_validator "docs" docs_mixed [])).2
  = ["❌ a.md: Broken link to 'missing.md' (text: 'm')";
     "❌ Error reading c.md: Permission denied"].
Proof.
  pose proof (unreadable_document_is_one_error true "docs" []
                (take 2 docs_mixed) (drop 3 docs_mixed)
                (MdFile "c.md" (ReadError "Permission denied"))
                "Permission denied" eq_refl) as (H1 & H2 & _).
  split; [exact H1 | exact H2].
Defined.

(** ** Strings and messages *)

Lemma list_ascii_of_append (a b : string) :
  list_ascii_of_string (a +:+ b)
  = list_ascii_of_string a ++ list_ascii_of_string b.
Proof.
  induction a as [|c a IH]; [done|].
  change (String c a +:+ b) with (String c (a +:+ b)).
  simpl. by rewrite IH.
Qed.

Lemma list_ascii_of_string_inj (a b : string) :
  list_ascii_of_string a = list_ascii_of_string b → a = b.
Proof.
  intros H.
  rewrite <- (string_of_list_ascii_of_string a),
          <- (string_of_list_ascii_of_string b).
  by rewrite H.
Qed.

Lemma append_inv_tail (a b s : string) : a +:+ s = b +:+ s → a = b.
Proof.
  intros H. apply list_ascii_of_string_inj.
  apply (f_equal list_ascii_of_string) in H.
  rewrite !list_ascii_of_append in H. by apply app_inv_tail in H.
Qed.

Lemma last_of_append (a s : string) (c : ascii) :
  last (list_ascii_of_string s) = Some c →
  last (list_ascii_of_string (a +:+ s)) = Some c.
Proof. intros H. by rewrite list_ascii_of_append, last_app, H. Qed.

Lemma orphan_message_inj (a b : string) :
  orphan_message a = orphan_message b → a = b.
Proof.
  unfold orphan_message. intros H.
  apply (inj (String.app _)) in H. by apply append_inv_tail in H.
Qed.

Lemma nav_only_message_inj (a b : string) :
  nav_only_message a = nav_only_message b → a = b.
Proof.
  unfold nav_only_message. intros H.
  apply (inj (String.app _)) in H. by apply append_inv_tail in H.
Qed.

Lemma orphan_message_not_nav_only (a b : string) :
  orphan_message a ≠ nav_only_message b.
Proof.
  unfold orphan_message, nav_only_message. intros H.
  apply (inj (String.app _)) in H.
  apply (f_equal (λ s, last (list_ascii_of_string s))) in H.
  rewrite (last_of_append a _ ")"%char) in H by done.
  rewrite (last_of_append b _ "x"%char) in H by done.
  discriminate H.
Qed.

Lemma about_same_document (n m w : string) : about n w → about m w → n = m.
Proof.
  intros [-> | ->] [H | H].
  - by apply orphan_message_inj.
  - by apply orphan_message_not_nav_only in H.
  - symmetry in H. by apply orphan_message_not_nav_only in H.
  - by apply nav_only_message_inj.
Qed.

(** ** The Warnings of a run, document by document *)

Section Warnings.
Variable incoming : gmap string (list (string * string)).
Variable n : string.
Variable P : string → Prop.
Context `{!∀ w, Decision (P w)}.
Hypothesis P_about : ∀ w, P w → about n w.

Lemma file_warnings_about f w :
  w ∈ file_warnings incoming f → about (name f) w.
Proof.
  unfold file_warnings. case_decide; [by intros ?%elem_of_nil|].
  destruct (incoming !! name f) as [l|].
  - destruct (_ && _); [|by intros ?%elem_of_nil].
    intros ->%list_elem_of_singleton. by right.
  - intros ->%list_elem_of_singleton. by left.
Qed.

Lemma file_warnings_length f : length (file_warnings incoming f) ≤ 1.
Proof.
  unfold file_warnings. case_decide; [simpl; lia|].
  destruct (incoming !! name f) as [l|]; [|done].
  destruct (_ && _); simpl; lia.
Qed.

Lemma filter_warnings_other f :
  name f ≠ n → filter P (file_warnings incoming f) = [].
Proof.
  intros Hne. apply elem_of_nil_inv. intros w [Hw Hin]%list_elem_of_filter.
  apply Hne. eapply about_same_document; [|by apply P_about].
  by apply file_warnings_about.
Qed.

Lemma filter_warnings_absent fs :
  n ∉ names fs → filter P (fs ≫= file_warnings incoming) = [].
Proof.
  induction fs as [|f fs IH]; [done|].
  unfold names. rewrite fmap_cons, not_elem_of_cons. intros [Hne Hn].
  rewrite bind_cons, filter_app, IH by done.
  rewrite filter_warnings_other; [done|]. by apply not_eq_sym.
Qed.

Lemma filter_warnings_unique fs f :
  NoDup (names fs) → f ∈ fs → name f = n →
  filter P (fs ≫= file_warnings incoming)
  = filter P (file_warnings incoming f).
Proof.
  intros Hnd Hf Hn. apply list_elem_of_split in Hf as (l1 & l2 & ->).
  unfold names in Hnd. rewrite fmap_app, fmap_cons, Hn in Hnd.
  apply NoDup_app in Hnd as (_ & Hl1 & Hnd).
  apply NoDup_cons in Hnd as [Hl2 _].
  rewrite bind_app, bind_cons, !filter_app.
  rewrite !filter_warnings_absent, app_nil_r; [done|done|].
  intros Hin. apply (Hl1 _ Hin). by left.
Qed.
End Warnings.

Lemma file_warnings_nav_index incoming f :
  name f = nav_index → file_warnings incoming f = [].
Proof. intros H. unfold file_warnings. by rewrite decide_True. Qed.

Lemma file_warnings_orphan incoming f :
  name f ≠ nav_index → incoming !! name f = None →
  file_warnings incoming f = [orphan_message (name f)].
Proof.
  intros Hn Hi. unfold file_warnings. rewrite decide_False by done.
  by rewrite Hi.
Qed.

Lemma run_warnings verbose dir files out :
  warnings (validate_all_links verbose (new_validator dir files out)).2
  = files ≫=
      file_warnings
        (incoming_links (scan_files verbose (new_validator dir files out))).
Proof. by rewrite validate_warnings. Qed.

(** ** Claims about the Warnings *)

(** C3, as stated, fails: a document that no other document links to,
    but that links to itself, gets no warning at all. *)
Lemma self_linked_document_not_reported :
  "a.md" ∈ names docs_self_link ∧ "a.md" ≠ nav_index ∧
  incoming_from_others docs_self_link "a.md" = [] ∧
  warnings
    (validate_all_links false (new_validator "docs" docs_self_link [])).2
  = [].
Proof.
  split; [by_computation|]. split; [by_computation|].
  split; vm_compute; reflexivity.
Qed.

(** C3, amended.  In a directory, where names are unique, a document
    other than the navigation index that no extracted link targets, its
    own links included, gets exactly one warning, the orphan warning. *)
Theorem orphan_reported_once
    (verbose : bool) (dir : string) (files : list md_file)
    (out : list string) (f : md_file) :
  let run := validate_all_links verbose (new_validator dir files out) in
  NoDup (names files) →
  f ∈ files →
  name f ≠ nav_index →
  incoming_of files (name f) = [] →
  filter (about (name f)) (warnings run.2) = [orphan_message (name f)] ∧
  length (filter (λ w, w = orphan_message (name f)) (warnings run.2)) = 1.
Proof.
  intros run Hnd Hf Hnav Hinc. subst run. rewrite run_warnings.
  set (inc := incoming_links _).
  assert (inc !! name f = None) as Hnone.
  { subst inc. rewrite scan_files_incoming. simpl.
    unfold expected_entry. case_decide; [|done]. by rewrite Hinc. }
  split.
  - rewrite (filter_warnings_unique inc (name f) (about (name f)))
      with (f := f) by done.
    rewrite file_warnings_orphan by done.
    rewrite filter_cons_True by by left. done.
  - rewrite (filter_warnings_unique inc (name f)
               (λ w, w = orphan_message (name f))) with (f := f);
      [|by left|done..].
    rewrite file_warnings_orphan by done.
    by rewrite filter_cons_True.
Qed.

Lemma orphan_reported_once_witness :
  filter (about "c.md")
    (warnings (validate_all_links false (new_validator "docs" docs_abc [])).2)
  = [orphan_message "c.md"] ∧
  length
    (filter (λ w, w = orphan_message "c.md")
       (warnings
          (validate_all_links false (new_validator "docs" docs_abc [])).2))
  = 1.
Proof.
  apply (orphan_reported_once false "docs" docs_abc []
           (MdFile "c.md" (ReadOk "Nothing here either."))).
  - by_computation.
  - by_computation.
  - by_computation.
  - vm_compute. reflexivity.
Defined.

(** C6.  In a directory, where names are unique, a run emits at most one
    warning about any document, so never both kinds for the same one;
    and it emits no warning about the navigation index. *)
Theorem at_most_one_warning_per_document
    (verbose : bool) (dir : string) (files : list md_file)
    (out : list string) :
  let run := validate_all_links verbose (new_validator dir files out) in
  NoDup (names files) →
  (∀ f, f ∈ files → length (filter (about (name f)) (warnings run.2)) ≤ 1) ∧
  filter (about nav_index) (warnings run.2) = [].
Proof.
  intros run Hnd. subst run. rewrite run_warnings.
  set (inc := incoming_links _). split.
  - intros f Hf.
    rewrite (filter_warnings_unique inc (name f) (about (name f)))
      with (f := f) by done.
    etrans; [apply length_filter|]. apply file_warnings_length.
  - apply elem_of_nil_inv. intros w [Hw Hin]%list_elem_of_filter.
    apply list_elem_of_bind in Hin as (f & Hwf & _).
    pose proof (file_warnings_about inc f w Hwf) as Hf.
    pose proof (about_same_document _ _ _ Hf Hw) as Hname.
    rewrite file_warnings_nav_index in Hwf by done.
    by apply elem_of_nil in Hwf.
Qed.

Lemma at_most_one_warning_per_document_witness :
  (∀ f, f ∈ docs_mixed →
        length
          (filter (about (name f))
             (warnings
                (validate_all_links false
                   (new_validator "docs" docs_mixed [])).2)) ≤ 1) ∧
  filter (about nav_index)
    (warnings
       (validate_all_links false (new_validator "docs" docs_mixed [])).2)
  = [].
Proof.
  apply (at_most_one_warning_per_document false "docs" docs_mixed []).
  by_computation.
Defined.

(** ** Soundness of the matcher *)

Section Matcher.
Import Re.

Lemma star_run_sound (r : regex) (step : mstate → list mstate) :
  (∀ a b, b ∈ step a →
     ∃ pre caps, a.1 = pre ++ b.1 ∧ b.2 = a.2 ++ caps ∧ sem r pre caps) →
  ∀ fuel st st', st' ∈ star_run step fuel st →
    ∃ pre caps,
      st.1 = pre ++ st'.1 ∧ st'.2 = st.2 ++ caps ∧ sem (Star r) pre caps.
Proof.
  intros Hstep fuel. induction fuel as [|fuel IH]; intros st st'; simpl.
  - intros ->%list_elem_of_singleton. exists [], [].
    rewrite app_nil_r. eauto using sem.
  - rewrite elem_of_app, list_elem_of_bind, list_elem_of_singleton.
    intros [(mid & Hrest & [_ Hmid]%list_elem_of_filter) | ->].
    + apply Hstep in Hmid as (p1 & c1 & Hp1 & Hc1 & Hs1).
      apply IH in Hrest as (p2 & c2 & Hp2 & Hc2 & Hs2).
      exists (p1 ++ p2), (c1 ++ c2).
      rewrite Hp1, Hp2, Hc2, Hc1, <- !app_assoc. eauto using sem.
    + exists [], []. rewrite app_nil_r. eauto using sem.
Qed.

Lemma run_sound (r : regex) (st st' : mstate) :
  st' ∈ run r st →
  ∃ pre caps, st.1 = pre ++ st'.1 ∧ st'.2 = st.2 ++ caps ∧ sem r pre caps.
Proof.
  revert st st'. induction r as [c|c|r1 IH1 r2 IH2|r IH|r IH|r IH|r IH];
    intros st st'; simpl.
  - destruct st as [[|a s] caps]; simpl; [by intros ?%elem_of_nil|].
    case_decide as Ha; [|by intros ?%elem_of_nil].
    intros ->%list_elem_of_singleton. subst a. exists [c], [].
    simpl. rewrite app_nil_r. eauto using sem.
  - destruct st as [[|a s] caps]; simpl; [by intros ?%elem_of_nil|].
    case_decide as Ha; [by intros ?%elem_of_nil|].
    intros ->%list_elem_of_singleton. exists [a], [].
    simpl. rewrite app_nil_r. eauto using sem.
  - intros (mid & H2 & H1)%list_elem_of_bind.
    apply IH1 in H1 as (p1 & c1 & Hp1 & Hc1 & Hs1).
    apply IH2 in H2 as (p2 & c2 & Hp2 & Hc2 & Hs2).
    exists (p1 ++ p2), (c1 ++ c2).
    rewrite Hp1, Hp2, Hc2, Hc1, <- !app_assoc. eauto using sem.
  - intros (mid & H2 & H1)%list_elem_of_bind.
    apply IH in H1 as (p1 & c1 & Hp1 & Hc1 & Hs1).
    apply (star_run_sound r) in H2 as (p2 & c2 & Hp2 & Hc2 & Hs2);
      [|intros a b; apply IH].
    exists (p1 ++ p2), (c1 ++ c2).
    rewrite Hp1, Hp2, Hc2, Hc1, <- !app_assoc. eauto using sem.
  - intros H. apply (star_run_sound r) in H; [done|].
    intros a b. apply IH.
  - rewrite elem_of_app, list_elem_of_singleton. intros [H | ->].
    + apply IH in H as (p & c & Hp & Hc & Hs). eauto 6 using sem.
    + exists [], []. rewrite app_nil_r. eauto using sem.
  - intros (mid & -> & H)%list_elem_of_fmap.
    apply IH in H as (p & c & Hp & Hc & Hs). simpl.
    exists p, (c ++ [p]). rewrite Hp, Hc, <- app_assoc.
    rewrite length_app, Nat.add_sub, take_app_length.
    eauto using sem.
Qed.

Lemma findall_from_sound (r : regex) (s : list ascii) (skip : nat)
    (groups : list (list ascii)) :
  groups ∈ findall_from r skip s → ∃ pre, sem r pre groups.
Proof.
  revert skip. induction s as [|a s IH]; intros skip.
  - destruct skip as [|k]; simpl; [|by intros ?%elem_of_nil].
    unfold match_here.
    destruct (head (run r ([], []))) as [[rest caps]|] eqn:Hh;
      [|by intros ?%elem_of_nil].
    intros ->%list_elem_of_singleton.
    apply head_Some_elem_of, run_sound in Hh as (p & c & _ & Hc & Hs).
    simpl in Hc. subst caps. eauto.
  - destruct skip as [|k]; simpl; [|apply IH].
    unfold match_here.
    destruct (head (run r (a :: s, []))) as [[rest caps]|] eqn:Hh;
      [|apply IH].
    rewrite elem_of_cons. intros [-> | H]; [|by apply IH in H].
    apply head_Some_elem_of, run_sound in Hh as (p & c & _ & Hc & Hs).
    simpl in Hc. subst caps. eauto.
Qed.
End Matcher.

(** ** What the link pattern can capture *)

Ltac invert_sem :=
  repeat match goal with
  | H : Re.sem (Lit _) _ _ |- _ => inversion H; subst; clear H
  | H : Re.sem (NotLit _) _ _ |- _ => inversion H; subst; clear H
  | H : Re.sem (Cat _ _) _ _ |- _ => inversion H; subst; clear H
  | H : Re.sem (Plus _) _ _ |- _ => inversion H; subst; clear H
  | H : Re.sem (Opt _) _ _ |- _ => inversion H; subst; clear H
  | H : Re.sem (Grp _) _ _ |- _ => inversion H; subst; clear H
  end.

Lemma sem_star_not_lit (c : ascii) (p : list ascii)
    (caps : list (list ascii)) :
  Re.sem (Star (NotLit c)) p caps → caps = [].
Proof.
  remember (Star (NotLit c)) as r eqn:Hr. intros H.
  induction H as [| | | |r'|r' p1 p2 c1 c2 H1 _ H2 IH| | |];
    try discriminate Hr; [done|].
  injection Hr as ->. rewrite (IH eq_refl). by inversion H1.
Qed.

Lemma sem_link_pattern (pre : list ascii) (groups : list (list ascii)) :
  Re.sem link_pattern pre groups →
  ∃ x text y stem,
    groups = [x :: text; (y :: stem) ++ list_ascii_of_string ".md"].
Proof.
  unfold link_pattern. intros H. invert_sem;
    repeat match goal with
    | H : Re.sem (Star (NotLit _)) _ _ |- _ =>
        apply sem_star_not_lit in H; subst
    end; simpl; rewrite <- ?app_assoc; simpl; eauto.
Qed.

Lemma string_of_list_ascii_app (a b : list ascii) :
  string_of_list_ascii (a ++ b)
  = string_of_list_ascii a +:+ string_of_list_ascii b.
Proof.
  induction a as [|c a IH]; [done|].
  simpl. rewrite IH. done.
Qed.

Lemma extract_shape (content text target : string) :
  (text, target) ∈ extract content →
  ∃ x t y s,
    text = string_of_list_ascii (x :: t) ∧
    target = string_of_list_ascii (y :: s) +:+ ".md".
Proof.
  unfold extract, findall.
  intros [_ H]%list_elem_of_filter.
  apply list_elem_of_bind in H as (groups & Hlink & Hg).
  apply list_elem_of_fmap in Hg as (raw & -> & Hraw).
  apply findall_from_sound in Hraw as (pre & Hsem).
  apply sem_link_pattern in Hsem as (x & t & y & s & ->).
  simpl in Hlink. apply list_elem_of_singleton in Hlink.
  injection Hlink as -> ->. exists x, t, y, s. split; [done|].
  change (String y (string_of_list_ascii (s ++ list_ascii_of_string ".md")))
    with (string_of_list_ascii ((y :: s) ++ list_ascii_of_string ".md")).
  by rewrite string_of_list_ascii_app.
Qed.

(** ** Documents made of empty constructs *)

(** A document made of these two constructs is neither validated nor
    counted as a source of incoming links. *)
Example empty_parts_are_not_links :
  let files :=
    [MdFile "x.md" (ReadOk "") ; MdFile "y.md" (ReadOk "[](x.md) [t](.md)")] in
  let run := validate_all_links false (new_validator "docs" files []) in
  errors run.2 = [] ∧
  incoming_links (scan_files false (new_validator "docs" files [])) = ∅.
Proof. vm_compute. done. Qed.

(** ** The link report *)

Lemma extract_links_fst (f : md_file) (v : validator) :
  (_extract_links f v).1 = links_of f.
Proof. unfold _extract_links, links_of. by destruct (read_text f). Qed.

Section LinkMatrix.
Lemma link_matrix_step acc f :
  (add_to_matrix acc f).1 = <[name f := (links_of f).*2]> acc.1.
Proof.
  unfold add_to_matrix. rewrite <- extract_links_fst with (v := acc.2).
  by destruct (_extract_links f acc.2).
Qed.

Lemma link_matrix_other fs acc n :
  n ∉ names fs → (foldl add_to_matrix acc fs).1 !! n = acc.1 !! n.
Proof.
  revert acc. induction fs as [|f fs IH]; intros acc Hn; [done|].
  unfold names in Hn. rewrite fmap_cons, not_elem_of_cons in Hn.
  destruct Hn as [Hne Hn]. simpl. rewrite IH by done.
  rewrite link_matrix_step. by rewrite lookup_insert_ne.
Qed.

Lemma link_matrix_dom fs acc n :
  is_Some ((foldl add_to_matrix acc fs).1 !! n)
  ↔ is_Some (acc.1 !! n) ∨ n ∈ names fs.
Proof.
  revert acc. induction fs as [|f fs IH]; intros acc.
  - unfold names. simpl. rewrite elem_of_nil. tauto.
  - simpl. rewrite IH, link_matrix_step. unfold names.
    rewrite ?fmap_cons, elem_of_cons.
    destruct (decide (n = name f)) as [->|Hne].
    + rewrite lookup_insert_eq. split; [auto|]. intros _. left. by eexists.
    + rewrite lookup_insert_ne by done. tauto.
Qed.

Lemma link_matrix_unique fs acc g :
  NoDup (names fs) → g ∈ fs →
  (foldl add_to_matrix acc fs).1 !! name g = Some (links_of g).*2.
Proof.
  intros Hnd Hg. apply list_elem_of_split in Hg as (l1 & l2 & ->).
  unfold names in Hnd. rewrite fmap_app, fmap_cons in Hnd.
  apply NoDup_app in Hnd as (_ & _ & Hnd).
  apply NoDup_cons in Hnd as [Hnd _].
  rewrite foldl_app. simpl. rewrite link_matrix_other by done.
  by rewrite link_matrix_step, lookup_insert_eq.
Qed.

Lemma build_link_matrix_unique v g :
  NoDup (names (markdown_files v)) → g ∈ markdown_files v →
  (build_link_matrix v).1 !! name g = Some (links_of g).*2.
Proof. apply link_matrix_unique. Qed.

Lemma build_link_matrix_dom v n :
  n ∈ dom (build_link_matrix v).1 ↔ n ∈ names (markdown_files v).
Proof.
  rewrite elem_of_dom. unfold build_link_matrix.
  rewrite (link_matrix_dom _ (∅, v)). simpl. rewrite lookup_empty.
  split; [intros [[? [=]]|]; done | auto].
Qed.
End LinkMatrix.

Lemma foldl_snoc_fmap {A} (g : A → string) (l : list A) (init : list string) :
  foldl (λ report x, report ++ [g x]) init l = init ++ (g <$> l).
Proof.
  revert init. induction l as [|x l IH]; intros init; simpl.
  - by rewrite app_nil_r.
  - by rewrite IH, <- app_assoc.
Qed.

Lemma report_lines_rows (v : validator) :
  (report_lines v).1
  = report_header ++
    (report_row (build_link_matrix v).1
       <$> sorted (elements (dom (build_link_matrix v).1))).
Proof.
  unfold report_lines. destruct (build_link_matrix v) as [lm v'].
  simpl. by rewrite foldl_snoc_fmap.
Qed.

Lemma generate_link_report_joined (v : validator) :
  (generate_link_report v).1 = join nl (report_lines v).1.
Proof.
  unfold generate_link_report. by destruct (report_lines v).
Qed.

Lemma report_row_for (lm : gmap string (list string)) (g : md_file) :
  lm !! name g = Some (links_of g).*2 →
  row_for g (report_row lm (name g)).
Proof.
  intros Hlm. unfold report_row, row_for.
  rewrite lookup_total_alt, Hlm. simpl.
  destruct ((links_of g).*2) as [|t0 ts0] eqn:Hts.
  - exists []. repeat split; [constructor|constructor|done|done].
  - set (ts := sorted (elements (list_to_set (t0 :: ts0) : gset string))).
    assert (∀ t, t ∈ ts ↔ t ∈ t0 :: ts0) as Hin.
    { intros t. unfold ts, sorted.
      rewrite merge_sort_Permutation, elem_of_elements.
      apply elem_of_list_to_set. }
    exists ts. repeat split.
    + apply (Sorted_merge_sort _).
    + unfold ts, sorted. rewrite merge_sort_Permutation.
      apply NoDup_elements.
    + apply Hin.
    + apply Hin.
    + destruct ts as [|t1 ts1] eqn:Hts'; [|done].
      exfalso. apply (elem_of_nil t0), Hin. by left.
Qed.

Lemma Permutation_fmap_inv {A B} (f : A → B) (l : list B) (k : list A) :
  l ≡ₚ f <$> k → ∃ k', l = f <$> k' ∧ k ≡ₚ k'.
Proof.
  assert (∀ k0 : list A, f <$> k0 = map f k0) as Hmap.
  { induction k0 as [|x k0 IH]; [done|].
    change (f x :: (f <$> k0) = f x :: map f k0). by rewrite IH. }
  rewrite Hmap. intros H.
  apply Permutation_map_inv in H as (k' & -> & Hk).
  exists k'. split; [symmetry; apply Hmap | done].
Qed.

(** C8.  For a directory, where names are unique, the report consists of
    the header and one table row per document, the documents taken in
    ascending order of their names; the row of a document lists its
    distinct link targets in ascending order, each once, joined by
    commas, or the placeholder when it has no outgoing link. *)
Theorem report_has_one_sorted_row_per_document
    (dir : string) (files : list md_file) (out : list string) :
  let v := new_validator dir files out in
  NoDup (names files) →
  ∃ (docs : list md_file) (rows : list string),
    docs ≡ₚ files ∧
    Sorted String.le (names docs) ∧
    Forall2 row_for docs rows ∧
    (report_lines v).1 = report_header ++ rows ∧
    (generate_link_report v).1 = join nl (report_header ++ rows).
Proof.
  intros v Hnd.
  set (lm := (build_link_matrix v).1).
  assert (sorted (elements (dom lm)) ≡ₚ name <$> files) as Hperm.
  { unfold sorted. rewrite merge_sort_Permutation.
    apply NoDup_Permutation; [apply NoDup_elements|done|].
    intros n. rewrite elem_of_elements. apply build_link_matrix_dom. }
  destruct (Permutation_fmap_inv _ _ _ Hperm) as (docs & Hdocs & Hfiles).
  exists docs, (report_row lm <$> sorted (elements (dom lm))).
  split; [done|]. split.
  { unfold names. rewrite <- Hdocs. apply (Sorted_merge_sort _). }
  split.
  { rewrite Hdocs, <- list_fmap_compose. apply Forall2_fmap_r.
    apply Forall_Forall2_diag, Forall_forall. intros g Hg. simpl.
    apply report_row_for, build_link_matrix_unique; [done|].
    simpl. by rewrite Hfiles. }
  rewrite generate_link_report_joined, report_lines_rows. done.
Qed.

Lemma report_has_one_sorted_row_per_document_witness :
  ∃ (docs : list md_file) (rows : list string),
    docs ≡ₚ docs_mixed ∧
    Sorted String.le (names docs) ∧
    Forall2 row_for docs rows ∧
    (report_lines (new_validator "docs" docs_mixed [])).1
    = report_header ++ rows ∧
    (generate_link_report (new_validator "docs" docs_mixed [])).1
    = join nl (report_header ++ rows).
Proof.
  apply (report_has_one_sorted_row_per_document "docs" docs_mixed []).
  by_computation.
Defined.

(** The report of the mixed directory: [b.md], linked twice from [a.md],
    is listed once in its row. *)
Example report_mixed :
  (report_lines (new_validator "docs" docs_mixed [])).1
  = report_header ++
    ["| a.md | b.md, missing.md |";
     "| b.md | *(no outgoing links)* |";
     "| c.md | *(no outgoing links)* |";
     "| testing-navigation-index.md | a.md, b.md |"].
Proof. vm_compute. reflexivity. Qed.

(** * Further properties of the code *)

(** ** The three outcomes of the orphan check *)

Lemma file_warnings_nav_only incoming f text :
  name f ≠ nav_index →
  incoming !! name f = Some [(nav_index, text)] →
  file_warnings incoming f = [nav_only_message (name f)].
Proof.
  intros Hn Hi. unfold file_warnings. rewrite decide_False by done.
  by rewrite Hi.
Qed.

Lemma file_warnings_linked incoming f l :
  incoming !! name f = Some l →
  (∀ text, l ≠ [(nav_index, text)]) →
  file_warnings incoming f = [].
Proof.
  intros Hi Hl. unfold file_warnings. case_decide; [done|]. rewrite Hi.
  destruct l as [|[src text] [|x l]]; simpl; try done.
  case_bool_decide as Hsrc; [|done].
  simpl in Hsrc. injection Hsrc as ->. by destruct (Hl text).
Qed.

Lemma filter_warnings_silent incoming (P : string → Prop)
    `{!∀ w, Decision (P w)} (n : string) (fs : list md_file) :
  (∀ w, P w → about n w) →
  (∀ f, f ∈ fs → name f = n → file_warnings incoming f = []) →
  filter P (fs ≫= file_warnings incoming) = [].
Proof.
  intros HP Hfs. apply elem_of_nil_inv.
  intros w [Hw Hin]%list_elem_of_filter.
  apply list_elem_of_bind in Hin as (f & Hwf & Hf).
  assert (name f = n) as Hname.
  { eapply about_same_document; [|by apply HP].
    by eapply file_warnings_about. }
  rewrite (Hfs f Hf Hname) in Hwf. by apply elem_of_nil in Hwf.
Qed.

(** In a directory, a document other than the navigation index whose
    only incoming link is a single link from the navigation index gets
    exactly one warning, the one saying so. *)
Theorem nav_only_reported_once
    (verbose : bool) (dir : string) (files : list md_file)
    (out : list string) (f : md_file) (text : string) :
  let run := validate_all_links verbose (new_validator dir files out) in
  NoDup (names files) →
  f ∈ files →
  name f ≠ nav_index →
  incoming_of files (name f) = [(nav_index, text)] →
  filter (about (name f)) (warnings run.2) = [nav_only_message (name f)].
Proof.
  intros run Hnd Hf Hnav Hinc. subst run. rewrite run_warnings.
  set (inc := incoming_links _).
  assert (inc !! name f = Some [(nav_index, text)]) as Hsome.
  { subst inc. rewrite scan_files_incoming. simpl.
    unfold expected_entry. rewrite decide_True, Hinc; [done|].
    unfold names. by apply list_elem_of_fmap_2. }
  rewrite (filter_warnings_unique inc (name f) (about (name f)))
    with (f := f) by done.
  rewrite (file_warnings_nav_only inc f text) by done.
  rewrite filter_cons_True by by right. done.
Qed.

Lemma nav_only_reported_once_witness :
  filter (about "a.md")
    (warnings
       (validate_all_links false (new_validator "docs" docs_mixed [])).2)
  = [nav_only_message "a.md"].
Proof.
  apply (nav_only_reported_once false "docs" docs_mixed []
           (MdFile "a.md"
              (ReadOk "see [b](b.md) and [b again](b.md#x), [m](missing.md)"))
           "a").
  - by_computation.
  - by_computation.
  - by_computation.
  - vm_compute. reflexivity.
Defined.

(** A name that is the target of some extracted link, but not of exactly
    one link coming from the navigation index, gets no warning: neither
    a document linked from elsewhere, nor one that the navigation index
    alone links to twice. *)
Theorem linked_document_not_warned
    (verbose : bool) (dir : string) (files : list md_file)
    (out : list string) (n : string) :
  let run := validate_all_links verbose (new_validator dir files out) in
  incoming_of files n ≠ [] →
  (∀ text, incoming_of files n ≠ [(nav_index, text)]) →
  filter (about n) (warnings run.2) = [].
Proof.
  intros run Hne Hnav. subst run. rewrite run_warnings.
  set (inc := incoming_links _).
  apply (filter_warnings_silent inc (about n) n); [done|].
  intros f Hf Hname.
  apply (file_warnings_linked inc f (incoming_of files n)); [|done].
  subst inc. rewrite scan_files_incoming, Hname. simpl.
  unfold expected_entry. rewrite decide_True.
  - by destruct (incoming_of files n).
  - rewrite <- Hname. unfold names. by apply list_elem_of_fmap_2.
Qed.

(** The navigation index alone links twice to [x.md]. *)
Lemma linked_document_not_warned_witness :
  filter (about "x.md")
    (warnings
       (validate_all_links false
          (new_validator "docs"
             [MdFile "testing-navigation-index.md"
                (ReadOk "[x](x.md), again [x](x.md)");
              MdFile "x.md" (ReadOk "")] [])).2)
  = [].
Proof.
  apply (linked_document_not_warned false "docs"
           [MdFile "testing-navigation-index.md"
              (ReadOk "[x](x.md), again [x](x.md)");
            MdFile "x.md" (ReadOk "")] [] "x.md").
  - vm_compute. discriminate.
  - intros text. vm_compute. discriminate.
Defined.

(** ** What the operations leave untouched *)

Section Untouched.
Implicit Types (v : validator) (ls es ws : list string).

Lemma stdout_print_all ls v : stdout (print_all ls v) = stdout v ++ ls.
Proof.
  revert v. induction ls as [|m ls IH]; intros v; simpl.
  - by rewrite app_nil_r.
  - unfold print_all in *. simpl. rewrite IH. simpl.
    by rewrite <- app_assoc.
Qed.

Lemma files_print_all ls v :
  markdown_files (print_all ls v) = markdown_files v.
Proof.
  revert v. induction ls as [|m ls IH]; intros v; [done|].
  unfold print_all in *. simpl. by rewrite IH.
Qed.

Lemma dir_print_all ls v : docs_dir (print_all ls v) = docs_dir v.
Proof.
  revert v. induction ls as [|m ls IH]; intros v; [done|].
  unfold print_all in *. simpl. by rewrite IH.
Qed.

Lemma stdout_record_errors es v : stdout (record_errors es v) = stdout v.
Proof.
  revert v. induction es as [|m es IH]; intros v; [done|].
  unfold record_errors in *. simpl. by rewrite IH.
Qed.

Lemma dir_record_errors es v : docs_dir (record_errors es v) = docs_dir v.
Proof.
  revert v. induction es as [|m es IH]; intros v; [done|].
  unfold record_errors in *. simpl. by rewrite IH.
Qed.

Lemma stdout_record_warnings ws v : stdout (record_warnings ws v) = stdout v.
Proof.
  revert v. induction ws as [|m ws IH]; intros v; [done|].
  unfold record_warnings in *. simpl. by rewrite IH.
Qed.

Lemma files_record_warnings ws v :
  markdown_files (record_warnings ws v) = markdown_files v.
Proof.
  revert v. induction ws as [|m ws IH]; intros v; [done|].
  unfold record_warnings in *. simpl. by rewrite IH.
Qed.

Lemma dir_record_warnings ws v :
  docs_dir (record_warnings ws v) = docs_dir v.
Proof.
  revert v. induction ws as [|m ws IH]; intros v; [done|].
  unfold record_warnings in *. simpl. by rewrite IH.
Qed.

Lemma files_print_results verbose v :
  markdown_files (_print_results verbose v) = markdown_files v.
Proof.
  unfold _print_results. cbv zeta.
  repeat match goal with
  | |- context [match ?x with [] => _ | _ :: _ => _ end] => destruct x
  end; repeat (simpl; rewrite ?files_print_all); done.
Qed.

Lemma dir_print_results verbose v :
  docs_dir (_print_results verbose v) = docs_dir v.
Proof.
  unfold _print_results. cbv zeta.
  repeat match goal with
  | |- context [match ?x with [] => _ | _ :: _ => _ end] => destruct x
  end; repeat (simpl; rewrite ?dir_print_all); done.
Qed.

Lemma scan_files_kept verbose file_map fs sc :
  markdown_files (scan_self (foldl (scan_file verbose file_map) sc fs))
  = markdown_files (scan_self sc).
Proof.
  revert sc. induction fs as [|f fs IH]; intros sc; simpl; [done|].
  by rewrite IH, scan_file_self, files_record_errors, files_announce.
Qed.

Lemma scan_dir_kept verbose file_map fs sc :
  docs_dir (scan_self (foldl (scan_file verbose file_map) sc fs))
  = docs_dir (scan_self sc).
Proof.
  revert sc. induction fs as [|f fs IH]; intros sc; simpl; [done|].
  rewrite IH, scan_file_self, dir_record_errors.
  unfold announce. by destruct verbose.
Qed.

Lemma scan_stdout verbose file_map fs sc :
  stdout (scan_self (foldl (scan_file verbose file_map) sc fs))
  = stdout (scan_self sc)
    ++ (if verbose then progress_line <$> fs else []).
Proof.
  revert sc. induction fs as [|f fs IH]; intros sc; simpl.
  - destruct verbose; by rewrite app_nil_r.
  - rewrite IH, scan_file_self, stdout_record_errors.
    unfold announce. destruct verbose; simpl; [|done].
    by rewrite <- app_assoc.
Qed.

Lemma validate_files verbose v :
  markdown_files (validate_all_links verbose v).2 = markdown_files v.
Proof.
  unfold validate_all_links. cbv zeta. cbn [fst snd].
  rewrite files_print_results, check_orphans_fold, files_record_warnings.
  unfold scan_files. by rewrite scan_files_kept.
Qed.

Lemma validate_dir verbose v :
  docs_dir (validate_all_links verbose v).2 = docs_dir v.
Proof.
  unfold validate_all_links. cbv zeta. cbn [fst snd].
  rewrite dir_print_results, check_orphans_fold, dir_record_warnings.
  unfold scan_files. by rewrite scan_dir_kept.
Qed.
End Untouched.

(** ** Reusing a validator *)

(** The Errors and Warnings are never reset: a second call of
    [validate_all_links] on the same validator appends the findings of
    the run once more, and returns the same flag as the first. *)
Theorem validate_twice_accumulates
    (verbose verbose' : bool) (dir : string) (files : list md_file)
    (out : list string) :
  let run1 := validate_all_links verbose (new_validator dir files out) in
  let run2 := validate_all_links verbose' run1.2 in
  errors run2.2 = errors run1.2 ++ errors run1.2 ∧
  warnings run2.2 = warnings run1.2 ++ warnings run1.2 ∧
  run2.1 = run1.1.
Proof.
  intros run1 run2.
  assert (markdown_files run1.2 = files) as Hfiles
    by (subst run1; by rewrite validate_files).
  assert (errors run1.2 = files ≫= file_errors files) as He1
    by (subst run1; by rewrite validate_errors).
  assert (errors run2.2 = errors run1.2 ++ errors run1.2) as He2.
  { subst run2. rewrite validate_errors, Hfiles. by rewrite <- He1. }
  split; [done|]. split.
  - subst run2. rewrite validate_warnings, Hfiles. f_equal.
    subst run1. rewrite run_warnings. f_equal. f_equal.
    apply scan_files_incoming_same.
    by rewrite validate_files.
  - subst run2.
    pose proof (validate_success verbose' run1.2) as Hs2.
    rewrite He2 in Hs2.
    pose proof (validate_success verbose (new_validator dir files out))
      as Hs1.
    fold run1 in Hs1. rewrite Hs2, Hs1.
    apply bool_decide_ext.
    split; [by intros [? _]%app_nil | intros H; by rewrite H].
Qed.

(** ** The side effects of the report *)

Lemma read_errors_cons (f : md_file) (fs : list md_file) :
  read_errors (f :: fs) = read_errors [f] ++ read_errors fs.
Proof. unfold read_errors. by rewrite !bind_cons, app_nil_r. Qed.

Lemma extract_links_snd (f : md_file) (v : validator) :
  (_extract_links f v).2 = record_errors (read_errors [f]) v.
Proof.
  unfold _extract_links, read_errors. rewrite bind_cons. simpl.
  by destruct (read_text f).
Qed.

Lemma add_to_matrix_snd acc f :
  (add_to_matrix acc f).2 = record_errors (read_errors [f]) acc.2.
Proof.
  unfold add_to_matrix. rewrite <- extract_links_snd.
  by destruct (_extract_links f acc.2).
Qed.

Lemma link_matrix_self fs acc :
  (foldl add_to_matrix acc fs).2 = record_errors (read_errors fs) acc.2.
Proof.
  revert acc. induction fs as [|f fs IH]; intros acc; [done|].
  rewrite read_errors_cons, record_errors_app. cbn [foldl].
  by rewrite IH, add_to_matrix_snd.
Qed.

Lemma generate_link_report_self (v : validator) :
  (generate_link_report v).2
  = record_errors (read_errors (markdown_files v)) v.
Proof.
  unfold generate_link_report, report_lines.
  pose proof (link_matrix_self (markdown_files v) (∅, v)) as H.
  fold (build_link_matrix v) in H.
  destruct (build_link_matrix v) as [lm v']. simpl in *. done.
Qed.

(** [generate_link_report] prints nothing and warns about nothing, but
    it does record one Error for each file that cannot be read; a later
    [validate_all_links] on the same validator therefore lists every
    read failure twice. *)
Theorem report_records_read_failures
    (verbose : bool) (dir : string) (files : list md_file)
    (out : list string) :
  let after := (generate_link_report (new_validator dir files out)).2 in
  errors after = read_errors files ∧
  warnings after = [] ∧
  stdout after = out ∧
  errors (validate_all_links verbose after).2
  = read_errors files ++ (files ≫= file_errors files).
Proof.
  intros after. subst after. rewrite generate_link_report_self.
  change (markdown_files (new_validator dir files out)) with files.
  rewrite validate_errors, errors_record_errors, files_record_errors.
  rewrite warnings_record_errors, stdout_record_errors. done.
Qed.

Example report_then_validate_mixed :
  let after := (generate_link_report (new_validator "docs" docs_mixed [])).2 in
  errors (validate_all_links false after).2
  = [read_error_message "c.md" "Permission denied";
     broken_link_message "a.md" "missing.md" "m";
     read_error_message "c.md" "Permission denied"].
Proof. vm_compute. reflexivity. Qed.

(** ** The order of the directory listing *)

Lemma names_Permutation (files files' : list md_file) :
  files ≡ₚ files' → names files ≡ₚ names files'.
Proof. intros H. unfold names. by rewrite H. Qed.

Lemma file_errors_Permutation (files files' : list md_file) (f : md_file) :
  files ≡ₚ files' → file_errors files f = file_errors files' f.
Proof.
  intros H%names_Permutation. unfold file_errors.
  destruct (read_text f) as [content|e]; [|done].
  f_equal. apply list_filter_iff. intros l. by rewrite H.
Qed.

Lemma bind_ext_in {A B} (g h : A → list B) (l : list A) :
  (∀ x, x ∈ l → g x = h x) → l ≫= g = l ≫= h.
Proof.
  induction l as [|x l IH]; intros H; [done|].
  rewrite !bind_cons, IH, (H x); [done|by left|].
  intros y Hy. apply H. by right.
Qed.

Lemma run_errors_Permutation (files files' : list md_file) :
  files ≡ₚ files' →
  files ≫= file_errors files ≡ₚ files' ≫= file_errors files'.
Proof.
  intros H. rewrite (bind_ext_in (file_errors files) (file_errors files')).
  - by rewrite H.
  - intros f _. by apply file_errors_Permutation.
Qed.

Lemma incoming_of_Permutation (files files' : list md_file) (t : string) :
  files ≡ₚ files' → incoming_of files t ≡ₚ incoming_of files' t.
Proof. intros H. unfold incoming_of. by rewrite H. Qed.

Lemma file_warnings_Permutation incoming incoming' (f : md_file) :
  (incoming !! name f = None ↔ incoming' !! name f = None) →
  (∀ l l', incoming !! name f = Some l → incoming' !! name f = Some l' →
           l ≡ₚ l') →
  file_warnings incoming f = file_warnings incoming' f.
Proof.
  intros Hnone Hsome. unfold file_warnings. case_decide; [done|].
  destruct (incoming !! name f) as [l|] eqn:Hl,
           (incoming' !! name f) as [l'|] eqn:Hl'.
  - specialize (Hsome l l' eq_refl eq_refl).
    destruct l as [|x [|y l]].
    + apply Permutation_nil_l in Hsome as <-. done.
    + apply Permutation_singleton_l in Hsome as <-. done.
    + apply Permutation_length in Hsome.
      destruct l' as [|x' [|y' l']]; simpl in Hsome; try lia. done.
  - destruct Hnone as [_ Hnone]. by specialize (Hnone eq_refl).
  - destruct Hnone as [Hnone _]. by specialize (Hnone eq_refl).
  - done.
Qed.

Lemma expected_entry_Permutation (files files' : list md_file) (t : string) :
  files ≡ₚ files' →
  (expected_entry files t = None ↔ expected_entry files' t = None) ∧
  (∀ l l', expected_entry files t = Some l →
           expected_entry files' t = Some l' → l ≡ₚ l').
Proof.
  intros H. pose proof (incoming_of_Permutation _ _ t H) as Hinc.
  pose proof (names_Permutation _ _ H) as Hnames.
  unfold expected_entry.
  destruct (decide (t ∈ names files)) as [Hk|Hk],
           (decide (t ∈ names files')) as [Hk'|Hk'];
    try (rewrite Hnames in Hk; done); try done.
  destruct (incoming_of files t) as [|x l];
    destruct (incoming_of files' t) as [|x' l'].
  - done.
  - by apply Permutation_nil_l in Hinc.
  - by apply Permutation_nil_r in Hinc.
  - split; [done|]. by intros ?? [= <-] [= <-].
Qed.

Lemma run_warnings_Permutation verbose verbose' dir dir' out out'
    (files files' : list md_file) :
  files ≡ₚ files' →
  files ≫=
    file_warnings
      (incoming_links (scan_files verbose (new_validator dir files out)))
  ≡ₚ files' ≫=
    file_warnings
      (incoming_links (scan_files verbose' (new_validator dir' files' out'))).
Proof.
  intros H. rewrite (bind_ext_in _
    (file_warnings
       (incoming_links
          (scan_files verbose' (new_validator dir' files' out'))))).
  - by rewrite H.
  - intros f _. apply file_warnings_Permutation;
      rewrite !scan_files_incoming; simpl;
      by apply expected_entry_Permutation.
Qed.

Lemma run_errors verbose dir files out :
  errors (validate_all_links verbose (new_validator dir files out)).2
  = files ≫= file_errors files.
Proof. by rewrite validate_errors. Qed.

Lemma run_success verbose dir files out :
  (validate_all_links verbose (new_validator dir files out)).1
  = bool_decide (files ≫= file_errors files = []).
Proof. by rewrite validate_success, run_errors. Qed.

Lemma no_run_errors_Permutation (files files' : list md_file) :
  files ≡ₚ files' →
  bool_decide (files ≫= file_errors files = [])
  = bool_decide (files' ≫= file_errors files' = []).
Proof.
  intros H. apply bool_decide_ext.
  pose proof (run_errors_Permutation _ _ H) as He.
  split; intros Hnil; rewrite Hnil in He.
  - by apply Permutation_nil_l in He.
  - by apply Permutation_nil_r in He.
Qed.

(** Whatever order the directory is listed in, a run records the same
    Errors and the same Warnings, up to their order, and returns the
    same flag. *)
Theorem validation_ignores_listing_order
    (verbose : bool) (dir : string) (files files' : list md_file)
    (out : list string) :
  let run := validate_all_links verbose (new_validator dir files out) in
  let run' := validate_all_links verbose (new_validator dir files' out) in
  files ≡ₚ files' →
  errors run.2 ≡ₚ errors run'.2 ∧
  warnings run.2 ≡ₚ warnings run'.2 ∧
  run.1 = run'.1.
Proof.
  intros run run' H. subst run run'.
  rewrite !run_success, !run_warnings, !run_errors.
  split; [by apply run_errors_Permutation|].
  split; [by apply run_warnings_Permutation|].
  by apply no_run_errors_Permutation.
Qed.

Lemma validation_ignores_listing_order_witness :
  let run := validate_all_links false (new_validator "docs" docs_mixed []) in
  let run' :=
    validate_all_links false (new_validator "docs" (reverse docs_mixed) []) in
  errors run.2 ≡ₚ errors run'.2 ∧
  warnings run.2 ≡ₚ warnings run'.2 ∧
  run.1 = run'.1.
Proof.
  apply (validation_ignores_listing_order false "docs"
           docs_mixed (reverse docs_mixed) []).
  symmetry. apply reverse_Permutation.
Defined.

(** The exit status of the program does not depend on the order in which
    the directory is listed. *)
Theorem exit_code_ignores_listing_order
    (argv : list string) (files files' : list md_file) (io : write_outcome) :
  files ≡ₚ files' →
  exit_code (main argv files io) = exit_code (main argv files' io).
Proof.
  intros H. unfold main. case_bool_decide as Hr.
  - do 2 destruct (generate_link_report _). by destruct io.
  - set (verbose := _ || _).
    assert ((validate_all_links verbose (new_validator "docs" files [])).1
            = (validate_all_links verbose (new_validator "docs" files' [])).1)
      as Heq.
    { rewrite !run_success. by apply no_run_errors_Permutation. }
    destruct (validate_all_links verbose (new_validator "docs" files []))
      as [ok v],
      (validate_all_links verbose (new_validator "docs" files' []))
      as [ok' v'].
    simpl in Heq. subst ok'. by destruct ok.
Qed.

Lemma exit_code_ignores_listing_order_witness :
  exit_code (main ["docs/validate-links.py"] docs_mixed WriteOk)
  = exit_code (main ["docs/validate-links.py"] (reverse docs_mixed) WriteOk).
Proof.
  apply (exit_code_ignores_listing_order
           ["docs/validate-links.py"] docs_mixed (reverse docs_mixed) WriteOk).
  symmetry. apply reverse_Permutation.
Defined.

Lemma link_matrix_Permutation dir dir' out out' (files files' : list md_file) :
  NoDup (names files) → files ≡ₚ files' →
  (build_link_matrix (new_validator dir files out)).1
  = (build_link_matrix (new_validator dir' files' out')).1.
Proof.
  intros Hnd H. apply map_eq. intros n.
  assert (NoDup (names files')) as Hnd'
    by by rewrite <- (names_Permutation _ _ H).
  destruct (decide (n ∈ names files)) as [Hn|Hn].
  - unfold names in Hn. apply list_elem_of_fmap in Hn as (f & -> & Hf).
    rewrite !build_link_matrix_unique; try done.
    simpl. by rewrite <- H.
  - transitivity (@None (list string)); [|symmetry];
      apply not_elem_of_dom; rewrite build_link_matrix_dom; simpl; [done|].
    by rewrite <- (names_Permutation _ _ H).
Qed.

(** For a directory, where names are unique, the text of the report does
    not depend on the order in which the directory is listed. *)
Theorem report_ignores_listing_order
    (dir : string) (files files' : list md_file) (out : list string) :
  NoDup (names files) →
  files ≡ₚ files' →
  (generate_link_report (new_validator dir files out)).1
  = (generate_link_report (new_validator dir files' out)).1.
Proof.
  intros Hnd H.
  rewrite !generate_link_report_joined, !report_lines_rows.
  by rewrite (link_matrix_Permutation dir dir out out files files').
Qed.

Lemma report_ignores_listing_order_witness :
  (generate_link_report (new_validator "docs" docs_mixed [])).1
  = (generate_link_report (new_validator "docs" (reverse docs_mixed) [])).1.
Proof.
  apply (report_ignores_listing_order "docs" docs_mixed (reverse docs_mixed) []).
  - by_computation.
  - symmetry. apply reverse_Permutation.
Defined.

(** ** The report mode of [main] *)

(** With [--report] among the arguments, [main] never validates, so
    that broken links and unreadable files do not count: what decides is
    whether the report can be stored.  If it can, the report is written
    to [docs/link-report.md], the one confirmation line is printed and
    the status is 0; if [open] or [write] raises, nothing at all is
    printed and the uncaught exception ends the process with status 1. *)
Theorem main_report_mode (argv : list string) (files : list md_file) :
  "--report" ∈ argv →
  main argv files WriteOk
  = {| exit_code := 0;
       printed := ["📄 Link report generated: docs/link-report.md"];
       written :=
         Some ("docs/link-report.md",
               (generate_link_report (new_validator "docs" files [])).1);
       uncaught := None |} ∧
  ∀ (e : string) (left_behind : option string),
    main argv files (WriteFails e left_behind)
    = {| exit_code := 1;
         printed := [];
         written := (λ content, ("docs/link-report.md", content))
                      <$> left_behind;
         uncaught := Some e |}.
Proof.
  intros Hr. unfold main. rewrite (bool_decide_eq_true_2 _ Hr).
  pose proof (generate_link_report_self (new_validator "docs" files [])) as Hv.
  destruct (generate_link_report (new_validator "docs" files [])) as [report v].
  simpl in Hv. subst v. simpl. by rewrite stdout_record_errors.
Qed.

(** The directory [docs] is missing: nothing is listed and [open] fails. *)
Lemma main_report_mode_witness :
  main ["docs/validate-links.py"; "--report"] [] WriteOk
  = {| exit_code := 0;
       printed := ["📄 Link report generated: docs/link-report.md"];
       written :=
         Some ("docs/link-report.md",
               (generate_link_report (new_validator "docs" [] [])).1);
       uncaught := None |} ∧
  ∀ (e : string) (left_behind : option string),
    main ["docs/validate-links.py"; "--report"] [] (WriteFails e left_behind)
    = {| exit_code := 1;
         printed := [];
         written := (λ content, ("docs/link-report.md", content))
                      <$> left_behind;
         uncaught := Some e |}.
Proof.
  apply (main_report_mode ["docs/validate-links.py"; "--report"] []).
  by_computation.
Defined.

(** ** What a run prints *)

Lemma print_results_stdout (verbose : bool) (v : validator) :
  stdout (_print_results verbose v)
  = stdout v ++ summary_lines (errors v) (warnings v).
Proof.
  destruct v as [d fs es ws o]. unfold _print_results, summary_lines.
  cbn [errors warnings stdout print].
  destruct es as [|e es], ws as [|w ws];
    repeat (cbn [errors warnings stdout print];
            rewrite ?stdout_print_all, ?errors_print_all,
              ?warnings_print_all);
    rewrite <- ?app_assoc; reflexivity.
Qed.

Lemma validate_stdout (verbose : bool) (v : validator) :
  stdout (validate_all_links verbose v).2
  = stdout v ++ opening_lines v
    ++ (if verbose then progress_line <$> markdown_files v else [])
    ++ summary_lines (errors (validate_all_links verbose v).2)
         (warnings (validate_all_links verbose v).2).
Proof.
  unfold validate_all_links. cbv zeta. cbn [fst snd].
  rewrite errors_print_results, warnings_print_results.
  rewrite print_results_stdout, check_orphans_fold, stdout_record_warnings.
  unfold scan_files. rewrite scan_stdout. simpl.
  by rewrite <- !app_assoc.
Qed.

(** The complete output of a run on a fresh validator: the two opening
    lines, then the results block of the Errors and Warnings found.  A
    verbose run finds the same, returns the same flag, and prints in
    addition one progress line per document, in the order of the
    listing, between the opening lines and the results block. *)
Theorem verbose_only_adds_progress_lines
    (dir : string) (files : list md_file) (out : list string) :
  let v := new_validator dir files out in
  let quiet := validate_all_links false v in
  let loud := validate_all_links true v in
  stdout quiet.2
  = out ++ opening_lines v
    ++ summary_lines (errors quiet.2) (warnings quiet.2) ∧
  stdout loud.2
  = out ++ opening_lines v ++ (progress_line <$> files)
    ++ summary_lines (errors quiet.2) (warnings quiet.2) ∧
  errors loud.2 = errors quiet.2 ∧
  warnings loud.2 = warnings quiet.2 ∧
  loud.1 = quiet.1.
Proof.
  intros v quiet loud.
  assert (errors loud.2 = errors quiet.2) as He
    by (subst loud quiet v; by rewrite !run_errors).
  assert (warnings loud.2 = warnings quiet.2) as Hw.
  { subst loud quiet v. rewrite !run_warnings. do 2 f_equal.
    by apply scan_files_incoming_same. }
  split; [|split; [|split; [exact He|split; [exact Hw|]]]].
  - subst quiet. rewrite validate_stdout. reflexivity.
  - rewrite <- He, <- Hw. subst loud. rewrite validate_stdout. reflexivity.
  - subst loud quiet v. rewrite !run_success. reflexivity.
Qed.

(** Every Error and every Warning that a run has recorded is handed to
    [print] in a call of its own, as two blanks followed by the message.
    (A message that holds a line feed, such as the message about a
    broken link whose display text is wrapped, then takes more than one
    line of the output.) *)
Theorem every_finding_is_printed
    (verbose : bool) (v : validator) (msg : string) :
  let run := validate_all_links verbose v in
  msg ∈ errors run.2 ∨ msg ∈ warnings run.2 →
  "  " +:+ msg ∈ stdout run.2.
Proof.
  intros run Hmsg. subst run. rewrite validate_stdout.
  rewrite !elem_of_app. do 3 right. unfold summary_lines.
  rewrite !elem_of_app.
  destruct Hmsg as [He | Hw].
  - right. left.
    destruct (errors _) as [|e es]; [by apply elem_of_nil in He|].
    right. by apply list_elem_of_fmap_2.
  - right. right. left.
    destruct (warnings _) as [|w ws]; [by apply elem_of_nil in Hw|].
    right. by apply list_elem_of_fmap_2.
Qed.

Lemma every_finding_is_printed_witness :
  "  " +:+ broken_link_message "a.md" "missing.md" "m"
  ∈ stdout (validate_all_links false (new_validator "docs" docs_mixed [])).2.
Proof.
  apply (every_finding_is_printed false (new_validator "docs" docs_mixed [])
           (broken_link_message "a.md" "missing.md" "m")).
  left. by_computation.
Defined.

(** ** Where the extracted links come from *)

Lemma findall_from_occurs (r : Re.regex) (s : list ascii) (skip : nat)
    (groups : list (list ascii)) :
  groups ∈ Re.findall_from r skip s →
  ∃ before pre after, s = before ++ pre ++ after ∧ Re.sem r pre groups.
Proof.
  revert skip. induction s as [|a s IH]; intros skip.
  - destruct skip as [|k]; simpl; [|by intros ?%elem_of_nil].
    unfold Re.match_here.
    destruct (head (Re.run r ([], []))) as [[rest caps]|] eqn:Hh;
      [|by intros ?%elem_of_nil].
    intros ->%list_elem_of_singleton.
    apply head_Some_elem_of, run_sound in Hh as (p & c & Hp & Hc & Hs).
    simpl in Hp, Hc. subst caps. exists [], p, rest. by rewrite <- Hp.
  - assert (∀ k, groups ∈ Re.findall_from r k s →
                 ∃ before pre after,
                   a :: s = before ++ pre ++ after ∧ Re.sem r pre groups)
      as Hlater.
    { intros k (before & pre & after & -> & Hs)%IH.
      by exists (a :: before), pre, after. }
    destruct skip as [|k]; simpl; [|apply Hlater].
    unfold Re.match_here.
    destruct (head (Re.run r (a :: s, []))) as [[rest caps]|] eqn:Hh;
      [|apply Hlater].
    rewrite elem_of_cons. intros [-> | H]; [|by apply Hlater in H].
    apply head_Some_elem_of, run_sound in Hh as (p & c & Hp & Hc & Hs).
    simpl in Hp, Hc. subst caps. exists [], p, rest. by rewrite <- Hp.
Qed.

Lemma sem_star_not_lit_chars (c : ascii) (p : list ascii)
    (caps : list (list ascii)) :
  Re.sem (Star (NotLit c)) p caps → c ∉ p.
Proof.
  remember (Star (NotLit c)) as r eqn:Hr. intros H.
  induction H as [| | | |r'|r' p1 p2 c1 c2 H1 _ H2 IH| | |];
    try discriminate Hr; [by intros ?%elem_of_nil|].
  injection Hr as ->. rewrite not_elem_of_app. split; [|by apply IH].
  inversion H1; subst. rewrite list_elem_of_singleton. congruence.
Qed.

Lemma sem_link_pattern_text (pre : list ascii) (groups : list (list ascii)) :
  Re.sem link_pattern pre groups →
  ∃ text stem frag,
    groups = [text; stem ++ list_ascii_of_string ".md"] ∧
    pre = list_ascii_of_string "[" ++ text ++ list_ascii_of_string "]("
          ++ (stem ++ list_ascii_of_string ".md") ++ frag
          ++ list_ascii_of_string ")" ∧
    text ≠ [] ∧ ("]"%char ∉ text) ∧
    stem ≠ [] ∧ (")"%char ∉ stem) ∧
    (frag = [] ∨ ∃ rest, frag = "#"%char :: rest) ∧ (")"%char ∉ frag).
Proof.
  unfold link_pattern. intros H. invert_sem;
    repeat match goal with
    | H : Re.sem (Star (NotLit ?c)) ?p ?caps |- _ =>
        pose proof (sem_star_not_lit_chars c p caps H);
        apply sem_star_not_lit in H; subst
    end; simpl; rewrite <- ?app_assoc; simpl.
  - match goal with
    | |- context [[?x :: ?t; ?y :: ?s ++ _]] =>
        exists (x :: t), (y :: s);
        match goal with
        | |- context ["#"%char :: ?fr ++ _] => exists ("#"%char :: fr)
        end
    end.
    split; [done|]. split; [by simpl; rewrite <- !app_assoc|].
    split; [done|]. split; [by apply not_elem_of_cons|].
    split; [done|]. split; [by apply not_elem_of_cons|].
    split; [by eauto|]. by apply not_elem_of_cons.
  - match goal with
    | |- context [[?x :: ?t; ?y :: ?s ++ _]] =>
        exists (x :: t), (y :: s), []
    end.
    split; [done|]. split; [by simpl; rewrite <- !app_assoc|].
    split; [done|]. split; [by apply not_elem_of_cons|].
    split; [done|]. split; [by apply not_elem_of_cons|].
    split; [by left|]. apply not_elem_of_nil.
Qed.

Lemma append_assoc (a b c : string) : (a +:+ b) +:+ c = a +:+ b +:+ c.
Proof.
  apply list_ascii_of_string_inj.
  by rewrite !list_ascii_of_append, app_assoc.
Qed.

Lemma extract_raw (content text target : string) :
  (text, target) ∈ Re.findall link_pattern content ≫= as_link →
  ∃ raw,
    raw ∈ Re.findall_from link_pattern 0 (list_ascii_of_string content) ∧
    string_of_list_ascii <$> raw = [text; target].
Proof.
  unfold Re.findall.
  intros (groups & Hlink & Hg)%list_elem_of_bind.
  apply list_elem_of_fmap in Hg as (raw & -> & Hraw).
  exists raw. split; [done|].
  change (map string_of_list_ascii raw) with (string_of_list_ascii <$> raw)
    in Hlink.
  destruct (string_of_list_ascii <$> raw) as [|a [|b [|c l]]];
    simpl in Hlink; try by apply elem_of_nil in Hlink.
  apply list_elem_of_singleton in Hlink. by injection Hlink as -> ->.
Qed.

(** An extracted link is really there: the document contains the text
    between square brackets, then the target in parentheses, closed
    directly or after a fragment that starts with [#]; the text holds no
    closing bracket, the target and the fragment no closing
    parenthesis. *)
Theorem extracted_link_occurs (content text target : string) :
  (text, target) ∈ extract content →
  ∃ before frag after : string,
    content
    = before +:+ "[" +:+ text +:+ "](" +:+ target +:+ frag +:+ ")" +:+ after ∧
    ("]"%char ∉ list_ascii_of_string text) ∧
    (")"%char ∉ list_ascii_of_string target) ∧
    (")"%char ∉ list_ascii_of_string frag) ∧
    (frag = "" ∨ ∃ rest, frag = String "#" rest).
Proof.
  unfold extract. intros [_ H]%list_elem_of_filter.
  apply extract_raw in H as (raw & Hraw & Hgroups).
  apply findall_from_occurs in Hraw as (before & pre & after & Hs & Hsem).
  apply sem_link_pattern_text in Hsem
    as (t & stem & frag & -> & -> & _ & Ht & _ & Hstem & Hfrag & Hfragc).
  simpl in Hgroups. injection Hgroups as <- <-.
  exists (string_of_list_ascii before), (string_of_list_ascii frag),
    (string_of_list_ascii after).
  rewrite !list_ascii_of_string_of_list_ascii.
  split; [|split; [done|]; split; [|split; [done|]]].
  - rewrite <- (string_of_list_ascii_of_string content), Hs.
    rewrite !string_of_list_ascii_app, !append_assoc.
    reflexivity.
  - rewrite not_elem_of_app. split; [done|]. by_computation.
  - destruct Hfrag as [-> | [rest ->]]; [by left|]. right. by eexists.
Qed.

Lemma extracted_link_occurs_witness :
  ∃ before frag after : string,
    "see [a](b.md#top)."
    = before +:+ "[" +:+ "a" +:+ "](" +:+ "b.md" +:+ frag +:+ ")" +:+ after ∧
    ("]"%char ∉ list_ascii_of_string "a") ∧
    (")"%char ∉ list_ascii_of_string "b.md") ∧
    (")"%char ∉ list_ascii_of_string frag) ∧
    (frag = "" ∨ ∃ rest, frag = String "#" rest).
Proof.
  apply (extracted_link_occurs "see [a](b.md#top)." "a" "b.md").
  by_computation.
Defined.

(** ** The test on the extension *)

Lemma endswith_md (stem : list ascii) :
  endswith (string_of_list_ascii (stem ++ list_ascii_of_string ".md")) ".md"
  = true.
Proof.
  unfold endswith. rewrite list_ascii_of_string_of_list_ascii.
  apply bool_decide_eq_true. rewrite length_app. simpl.
  rewrite Nat.add_sub. apply drop_app_length.
Qed.

Lemma filter_all {A} (P : A → Prop) `{!∀ x, Decision (P x)} (l : list A) :
  (∀ x, x ∈ l → P x) → filter P l = l.
Proof.
  induction l as [|x l IH]; intros Hall; [done|].
  rewrite filter_cons_True by (apply Hall; by left).
  rewrite IH; [done|]. intros y Hy. apply Hall. by right.
Qed.

(** The test [target.endswith('.md')] of [_extract_links] never drops a
    match: every match of the pattern already has such a target. *)
Theorem endswith_test_keeps_every_match (content : string) :
  extract content = Re.findall link_pattern content ≫= as_link.
Proof.
  unfold extract. apply filter_all. intros [text target] H. simpl.
  apply extract_raw in H as (raw & Hraw & Hgroups).
  apply findall_from_sound in Hraw as (pre & Hsem).
  apply sem_link_pattern_text in Hsem as (t & stem & frag & -> & _).
  simpl in Hgroups. injection Hgroups as <- <-.
  apply endswith_md.
Qed.

(** ** The preferred match of the link pattern *)

Section Preferred.
Import Re.
Implicit Types (r : regex) (st x y : mstate) (l rest : list ascii).

Lemma first_Lit c s caps : first_match (Lit c) (c :: s, caps) (s, caps).
Proof. exists []. simpl. by rewrite decide_True. Qed.

Lemma first_Cat r1 r2 st x y :
  first_match r1 st x → first_match r2 x y → first_match (Cat r1 r2) st y.
Proof.
  intros [m1 H1] [m2 H2]. exists (m2 ++ (m1 ≫= run r2)).
  simpl. by rewrite H1, bind_cons, H2.
Qed.

Lemma first_Cat_after r1 r2 st failed x more y :
  run r1 st = failed ++ x :: more →
  (∀ z, z ∈ failed → run r2 z = []) →
  first_match r2 x y → first_match (Cat r1 r2) st y.
Proof.
  intros H1 Hfailed [m2 H2]. exists (m2 ++ (more ≫= run r2)).
  simpl. rewrite H1, bind_app, bind_cons, H2.
  assert (failed ≫= run r2 = []) as ->; [|done].
  clear H1. induction failed as [|z failed IH]; [done|].
  rewrite bind_cons, Hfailed, IH; [done| |by left].
  intros z' Hz'. apply Hfailed. by right.
Qed.

Lemma first_Opt_some r st x : first_match r st x → first_match (Opt r) st x.
Proof. intros [m H]. exists (m ++ [st]). simpl. by rewrite H. Qed.

Lemma first_Opt_none r st : run r st = [] → first_match (Opt r) st st.
Proof. intros H. exists []. simpl. by rewrite H. Qed.

Lemma first_Grp r p s caps caps' :
  first_match r (p ++ s, caps) (s, caps') →
  first_match (Grp r) (p ++ s, caps) (s, caps' ++ [p]).
Proof.
  intros [m H]. unfold first_match.
  change (run (Grp r) (p ++ s, caps))
    with ((λ st' : mstate,
             (st'.1,
              st'.2 ++ [take (length (p ++ s) - length st'.1) (p ++ s)]))
            <$> run r (p ++ s, caps)).
  rewrite H, fmap_cons. cbn [fst snd]. eexists.
  rewrite length_app, Nat.add_sub, take_app_length. reflexivity.
Qed.

Lemma run_Lit_other c a s caps : a ≠ c → run (Lit c) (a :: s, caps) = [].
Proof. intros H. simpl. by rewrite decide_False. Qed.

Lemma run_Cat_Lit_other c r a s caps :
  a ≠ c → run (Cat (Lit c) r) (a :: s, caps) = [].
Proof.
  intros H. change (run (Lit c) (a :: s, caps) ≫= run r = []).
  by rewrite run_Lit_other.
Qed.

Lemma run_NotLit_blocked c rest caps :
  rest = [] ∨ (∃ rest', rest = c :: rest') →
  run (NotLit c) (rest, caps) = [].
Proof.
  intros [-> | [rest' ->]]; simpl; [done|]. by rewrite decide_True.
Qed.

Lemma star_not_lit_run c l rest caps fuel :
  c ∉ l →
  rest = [] ∨ (∃ rest', rest = c :: rest') →
  length l ≤ fuel →
  star_run (run (NotLit c)) fuel (l ++ rest, caps)
  = (rest, caps) :: longer l rest caps.
Proof.
  intros Hl Hrest. revert fuel.
  induction l as [|a l IH]; intros fuel Hfuel.
  - destruct fuel as [|fuel]; [done|].
    cbn [star_run app]. by rewrite run_NotLit_blocked.
  - destruct fuel as [|fuel]; [simpl in Hfuel; lia|].
    apply not_elem_of_cons in Hl as [Hac Hl].
    cbn [star_run]. simpl run. rewrite decide_False by done.
    rewrite filter_cons_True by (simpl; lia).
    rewrite filter_nil, bind_cons. simpl mbind. rewrite app_nil_r.
    rewrite IH by (done || simpl in Hfuel; lia). done.
Qed.

Lemma plus_not_lit_run c a l rest caps :
  c ∉ a :: l →
  rest = [] ∨ (∃ rest', rest = c :: rest') →
  run (Plus (NotLit c)) (a :: l ++ rest, caps)
  = (rest, caps) :: longer l rest caps.
Proof.
  intros Hl Hrest. apply not_elem_of_cons in Hl as [Hac Hl].
  simpl run. rewrite decide_False by done.
  rewrite bind_cons. simpl mbind. rewrite app_nil_r.
  apply star_not_lit_run; [done|done|].
  cbn [fst]. rewrite length_app. lia.
Qed.

Lemma longer_app l1 l2 rest caps :
  longer (l1 ++ l2) rest caps
  = longer l2 rest caps ++ longer l1 (l2 ++ rest) caps.
Proof.
  induction l1 as [|a l1 IH]; simpl.
  - by rewrite app_nil_r.
  - by rewrite IH, <- !app_assoc.
Qed.

Lemma longer_starts l rest caps st :
  st ∈ longer l rest caps → ∃ a s, a ∈ l ∧ st = (a :: s, caps).
Proof.
  induction l as [|b l IH]; simpl; [by intros ?%elem_of_nil|].
  rewrite elem_of_app, list_elem_of_singleton. intros [H | ->].
  - destruct (IH H) as (a & s & Ha & ->). exists a, s. split; [by right|done].
  - exists b, (l ++ rest). split; [by left|done].
Qed.
End Preferred.

Section PreferredLink.
Import Re.

Lemma first_text (text rest : list ascii) (caps : list (list ascii)) :
  text ≠ [] → "]"%char ∉ text →
  first_match (Grp (Plus (NotLit "]")))
    (text ++ "]"%char :: rest, caps) ("]"%char :: rest, caps ++ [text]).
Proof.
  intros Hne Hin. apply first_Grp.
  destruct text as [|a l]; [done|].
  exists (longer l ("]"%char :: rest) caps).
  apply plus_not_lit_run; [done|]. right. by eexists.
Qed.

Lemma first_star_not_lit (c : ascii) (l rest : list ascii)
    (caps : list (list ascii)) :
  c ∉ l →
  first_match (Star (NotLit c)) (l ++ c :: rest, caps) (c :: rest, caps).
Proof.
  intros Hin. exists (longer l (c :: rest) caps).
  change (run (Star (NotLit c)) (l ++ c :: rest, caps))
    with (star_run (run (NotLit c)) (length (l ++ c :: rest))
            (l ++ c :: rest, caps)).
  apply star_not_lit_run; [done| |].
  - right. by eexists.
  - rewrite length_app. lia.
Qed.

Lemma first_extension (frag rest : list ascii) (caps : list (list ascii)) :
  first_match (Cat (Lit ".") (Cat (Lit "m") (Lit "d")))
    ("."%char :: "m"%char :: "d"%char :: frag ++ rest, caps)
    (frag ++ rest, caps).
Proof.
  eapply first_Cat; [apply first_Lit|].
  eapply first_Cat; [apply first_Lit|]. apply first_Lit.
Qed.

Lemma first_target (stem frag rest : list ascii) (caps : list (list ascii)) :
  stem ≠ [] → ")"%char ∉ stem → ")"%char ∉ frag → "."%char ∉ frag →
  first_match
    (Grp (Cat (Plus (NotLit ")")) (Cat (Lit ".") (Cat (Lit "m") (Lit "d")))))
    ((stem ++ list_ascii_of_string ".md") ++ frag ++ ")"%char :: rest, caps)
    (frag ++ ")"%char :: rest,
     caps ++ [stem ++ list_ascii_of_string ".md"]).
Proof.
  intros Hne Hstem Hfrag Hdot. apply first_Grp.
  destruct stem as [|y stem]; [done|].
  apply not_elem_of_cons in Hstem as [Hy Hstem].
  set (rest0 := ")"%char :: rest).
  set (W' := "m"%char :: "d"%char :: frag).
  eapply (first_Cat_after _ _ _
            ((rest0, caps) :: longer W' rest0 caps)
            ("."%char :: W' ++ rest0, caps)
            (longer stem (("."%char :: W') ++ rest0) caps)).
  - transitivity
      (run (Plus (NotLit ")"))
         (y :: (stem ++ "."%char :: W') ++ rest0, caps)).
    { f_equal. f_equal. simpl. f_equal.
      rewrite <- !app_assoc. reflexivity. }
    rewrite plus_not_lit_run.
    + rewrite longer_app.
      change (longer ("."%char :: W') rest0 caps)
        with (longer W' rest0 caps ++ [("."%char :: W' ++ rest0, caps)]).
      rewrite <- !app_assoc. reflexivity.
    + rewrite not_elem_of_cons, not_elem_of_app. split; [done|].
      split; [done|]. unfold W'. rewrite !not_elem_of_cons. done.
    + right. by eexists.
  - intros z Hz. apply elem_of_cons in Hz as [-> | Hz].
    + by apply run_Cat_Lit_other.
    + apply longer_starts in Hz as (a & s & Ha & ->).
      apply run_Cat_Lit_other. intros ->.
      unfold W' in Ha. rewrite !elem_of_cons in Ha.
      destruct Ha as [Ha | [Ha | Ha]]; [discriminate Ha|discriminate Ha|done].
  - apply first_extension.
Qed.

Lemma first_fragment (frag tail : list ascii) (caps : list (list ascii)) :
  frag = [] ∨ (∃ fr, frag = "#"%char :: fr) → ")"%char ∉ frag →
  first_match (Cat (Opt (Cat (Lit "#") (Star (NotLit ")")))) (Lit ")"))
    (frag ++ ")"%char :: tail, caps) (tail, caps).
Proof.
  intros [-> | [fr ->]] Hfrag.
  - eapply first_Cat; [|apply first_Lit].
    apply first_Opt_none. by apply run_Cat_Lit_other.
  - apply not_elem_of_cons in Hfrag as [_ Hfr].
    eapply first_Cat; [|apply first_Lit].
    apply first_Opt_some. eapply first_Cat; [apply first_Lit|].
    by apply first_star_not_lit.
Qed.

Lemma match_here_link (text stem frag tail : list ascii) :
  text ≠ [] → "]"%char ∉ text →
  stem ≠ [] → ")"%char ∉ stem →
  frag = [] ∨ (∃ fr, frag = "#"%char :: fr) →
  ")"%char ∉ frag → "."%char ∉ frag →
  match_here link_pattern
    ("["%char :: text ++ "]"%char :: "("%char ::
       (stem ++ list_ascii_of_string ".md") ++ frag ++ ")"%char :: tail)
  = Some (tail, [text; stem ++ list_ascii_of_string ".md"]).
Proof.
  intros Ht Htc Hs Hsc Hf Hfc Hfd.
  assert (first_match link_pattern
            ("["%char :: text ++ "]"%char :: "("%char ::
               (stem ++ list_ascii_of_string ".md") ++ frag
               ++ ")"%char :: tail, [])
            (tail, [text; stem ++ list_ascii_of_string ".md"]))
    as [more Hrun].
  { unfold link_pattern.
    eapply first_Cat; [apply first_Lit|].
    eapply first_Cat; [by apply first_text|].
    eapply first_Cat; [apply first_Lit|].
    eapply first_Cat; [apply first_Lit|].
    eapply first_Cat; [by apply first_target|].
    by apply first_fragment. }
  unfold match_here. rewrite Hrun. reflexivity.
Qed.
End PreferredLink.

(** ** A well-formed link is extracted *)

Lemma findall_from_skip (r : Re.regex) (m tail : list ascii) :
  Re.findall_from r (length m) (m ++ tail) = Re.findall_from r 0 tail.
Proof. induction m as [|a m IH]; [done|]. exact IH. Qed.

Lemma findall_from_match (r : Re.regex) (a : ascii) (m tail : list ascii)
    (groups : list (list ascii)) :
  Re.match_here r (a :: m ++ tail) = Some (tail, groups) →
  Re.findall_from r 0 (a :: m ++ tail)
  = groups :: Re.findall_from r 0 tail.
Proof.
  intros H. cbn [Re.findall_from]. rewrite H. f_equal.
  replace (length (a :: m ++ tail) - length tail - 1) with (length m)
    by (simpl; rewrite length_app; lia).
  apply findall_from_skip.
Qed.

Lemma list_ascii_nonempty (s : string) :
  s ≠ "" → list_ascii_of_string s ≠ [].
Proof. destruct s; [done|]. discriminate. Qed.

Lemma findall_from_no_bracket (before s : list ascii) :
  "["%char ∉ before →
  Re.findall_from link_pattern 0 (before ++ s)
  = Re.findall_from link_pattern 0 s.
Proof.
  induction before as [|a before IH]; intros Hin; [done|].
  apply not_elem_of_cons in Hin as [Ha Hin].
  change ((a :: before) ++ s) with (a :: before ++ s).
  cbn [Re.findall_from].
  assert (Re.match_here link_pattern (a :: before ++ s) = None) as ->.
  { unfold Re.match_here, link_pattern.
    rewrite run_Cat_Lit_other; [done|]. by apply not_eq_sym. }
  by apply IH.
Qed.

(** A link written as [[text](stem.md)] or [[text](stem.md#frag)], with a
    non-empty text free of closing brackets, a non-empty stem free of
    closing parentheses and a fragment free of closing parentheses and
    of dots, standing after text that holds no opening bracket, is
    extracted with its text and with the target [stem.md], the fragment
    dropped; extraction goes on right after it. *)
Theorem well_formed_link_is_extracted
    (before text stem frag tail : string) :
  "["%char ∉ list_ascii_of_string before →
  text ≠ "" → "]"%char ∉ list_ascii_of_string text →
  stem ≠ "" → ")"%char ∉ list_ascii_of_string stem →
  frag = "" ∨ (∃ fr, frag = String "#" fr) →
  ")"%char ∉ list_ascii_of_string frag →
  "."%char ∉ list_ascii_of_string frag →
  extract
    (before +:+ "[" +:+ text +:+ "](" +:+ stem +:+ ".md" +:+ frag +:+ ")"
     +:+ tail)
  = (text, stem +:+ ".md") :: extract tail.
Proof.
  intros Hb Ht Htc Hs Hsc Hf Hfc Hfd.
  set (tl := list_ascii_of_string text) in *.
  set (sl := list_ascii_of_string stem) in *.
  set (fl := list_ascii_of_string frag) in *.
  set (rest := list_ascii_of_string tail).
  assert (list_ascii_of_string
            ("[" +:+ text +:+ "](" +:+ stem +:+ ".md" +:+ frag +:+ ")"
             +:+ tail)
          = "["%char ::
              (tl ++ "]"%char :: "("%char ::
                 (sl ++ list_ascii_of_string ".md") ++ fl ++ [")"%char])
              ++ rest) as Hchars.
  { rewrite !list_ascii_of_append. fold tl sl fl rest.
    repeat (progress (rewrite <- ?app_assoc; simpl)). reflexivity. }
  assert (Re.findall_from link_pattern 0
            (list_ascii_of_string
               (before +:+ "[" +:+ text +:+ "](" +:+ stem +:+ ".md" +:+ frag
                +:+ ")" +:+ tail))
          = [tl; sl ++ list_ascii_of_string ".md"]
              :: Re.findall_from link_pattern 0 rest) as Hfind.
  { rewrite (list_ascii_of_append before).
    rewrite findall_from_no_bracket by done.
    rewrite Hchars. apply findall_from_match.
    transitivity
      (Re.match_here link_pattern
         ("["%char :: tl ++ "]"%char :: "("%char ::
            (sl ++ list_ascii_of_string ".md") ++ fl ++ ")"%char :: rest)).
    { f_equal.
      repeat (progress (rewrite <- ?app_assoc; simpl)). reflexivity. }
    apply match_here_link; try assumption.
    - by apply list_ascii_nonempty.
    - by apply list_ascii_nonempty.
    - destruct Hf as [Hf | [fr Hf]]; unfold fl; rewrite Hf;
        [by left | right; by eexists]. }
  unfold extract, Re.findall. rewrite Hfind.
  cbn [map]. rewrite bind_cons. cbn [as_link app].
  rewrite filter_cons_True by apply endswith_md.
  unfold tl, sl. rewrite string_of_list_ascii_app.
  rewrite !string_of_list_ascii_of_string. reflexivity.
Qed.

Lemma well_formed_link_is_extracted_witness :
  extract ("See " +:+ "[" +:+ "the guide" +:+ "](" +:+ "guide" +:+ ".md"
           +:+ "#setup" +:+ ")" +:+ " and [more](more.md)")
  = ("the guide", "guide" +:+ ".md") :: extract " and [more](more.md)".
Proof.
  apply (well_formed_link_is_extracted
           "See " "the guide" "guide" "#setup" " and [more](more.md)").
  - by_computation.
  - by_computation.
  - by_computation.
  - by_computation.
  - by_computation.
  - right. by eexists.
  - by_computation.
  - by_computation.
Defined.

(** ** Constructs with an empty text or an empty stem *)

Section EmptyParts.
Import Re.

Lemma run_Cat_Lit (c : ascii) (r : regex) (s : list ascii)
    (caps : list (list ascii)) :
  run (Cat (Lit c) r) (c :: s, caps) = run r (s, caps).
Proof.
  change (run (Lit c) (c :: s, caps) ≫= run r = run r (s, caps)).
  assert (run (Lit c) (c :: s, caps) = [(s, caps)]) as ->.
  { simpl. by rewrite decide_True. }
  rewrite bind_cons. apply app_nil_r.
Qed.

Lemma bind_all_nil {A B} (f : A → list B) (l : list A) :
  (∀ z, z ∈ l → f z = []) → l ≫= f = [].
Proof.
  induction l as [|z l IH]; intros Hall; [done|].
  rewrite bind_cons, IH, (Hall z); [done|by left|].
  intros z' Hz'. apply Hall. by right.
Qed.

Lemma match_here_empty_text (s : list ascii) :
  match_here link_pattern ("["%char :: "]"%char :: s) = None.
Proof. reflexivity. Qed.

Lemma match_here_other (a : ascii) (s : list ascii) :
  a ≠ "["%char → match_here link_pattern (a :: s) = None.
Proof.
  intros Ha. unfold match_here, link_pattern.
  by rewrite run_Cat_Lit_other.
Qed.

Lemma findall_from_empty_text (before tail : list ascii) :
  "["%char ∉ before →
  findall_from link_pattern 0 (before ++ "["%char :: "]"%char :: tail)
  = findall_from link_pattern 0 tail.
Proof.
  intros Hb. rewrite findall_from_no_bracket by done.
  cbn [findall_from]. rewrite match_here_empty_text.
  cbn [findall_from]. by rewrite match_here_other.
Qed.

Lemma run_target_empty_stem (tail : list ascii) (caps : list (list ascii)) :
  run (Grp (Cat (Plus (NotLit ")")) (Cat (Lit ".") (Cat (Lit "m") (Lit "d")))))
    ("."%char :: "m"%char :: "d"%char :: ")"%char :: tail, caps)
  = [].
Proof.
  match goal with
  | |- run (Grp (Cat ?p ?k)) ?st = [] =>
      assert (run p st ≫= run k = []) as Hinner
  end.
  { apply bind_all_nil. intros z Hz.
    change ("."%char :: "m"%char :: "d"%char :: ")"%char :: tail)
      with ("."%char :: ["m"%char; "d"%char] ++ ")"%char :: tail) in Hz.
    rewrite plus_not_lit_run in Hz; [|by_computation|right; by eexists].
    apply elem_of_cons in Hz as [-> | Hz].
    - by apply run_Cat_Lit_other.
    - apply longer_starts in Hz as (b & s & Hb & ->).
      apply run_Cat_Lit_other. intros ->. revert Hb. by_computation. }
  match goal with
  | |- run (Grp (Cat ?p ?k)) ?st = [] =>
      change ((λ st' : mstate,
                 (st'.1,
                  st'.2 ++ [take (length st.1 - length st'.1) st.1]))
                <$> (run p st ≫= run k) = [])
  end.
  by rewrite Hinner.
Qed.

Lemma run_link_empty_stem (t tail : list ascii) :
  "]"%char ∉ t →
  run link_pattern
    ("["%char :: t ++ "]"%char :: "("%char ::
       "."%char :: "m"%char :: "d"%char :: ")"%char :: tail, [])
  = [].
Proof.
  intros Ht. unfold link_pattern. rewrite run_Cat_Lit.
  set (rest := "]"%char :: "("%char ::
                 "."%char :: "m"%char :: "d"%char :: ")"%char :: tail).
  match goal with
  | |- run (Cat ?g ?k) ?st = [] => change (run g st ≫= run k = [])
  end.
  apply bind_all_nil. intros z Hz.
  match type of Hz with
  | z ∈ run (Grp ?r) ?st =>
      change (z ∈ (λ st' : mstate,
                     (st'.1,
                      st'.2 ++ [take (length st.1 - length st'.1) st.1]))
                    <$> run r st) in Hz
  end.
  apply list_elem_of_fmap in Hz as (z0 & -> & Hz0).
  destruct t as [|a t]; [by apply elem_of_nil in Hz0|].
  change ((a :: t) ++ rest) with (a :: t ++ rest) in Hz0.
  rewrite plus_not_lit_run in Hz0; [|done|right; by eexists].
  apply not_elem_of_cons in Ht as [_ Ht].
  apply elem_of_cons in Hz0 as [-> | Hz0].
  - cbn [fst snd]. unfold rest. rewrite !run_Cat_Lit.
    match goal with
    | |- run (Cat ?g ?k) ?st = [] => change (run g st ≫= run k = [])
    end.
    by rewrite run_target_empty_stem.
  - apply longer_starts in Hz0 as (b & s & Hb & ->). cbn [fst snd].
    apply run_Cat_Lit_other. by intros ->.
Qed.

Lemma findall_from_empty_stem (before t tail : list ascii) :
  "["%char ∉ before → "["%char ∉ t → "]"%char ∉ t →
  findall_from link_pattern 0
    (before ++ "["%char :: t ++ "]"%char :: "("%char ::
       "."%char :: "m"%char :: "d"%char :: ")"%char :: tail)
  = findall_from link_pattern 0 tail.
Proof.
  intros Hb Ht Htc. rewrite findall_from_no_bracket by done.
  cbn [findall_from]. unfold match_here at 1.
  rewrite run_link_empty_stem by done. cbn [head].
  transitivity
    (findall_from link_pattern 0
       ((t ++ list_ascii_of_string "](.md)") ++ tail)).
  { f_equal. rewrite <- app_assoc. reflexivity. }
  apply findall_from_no_bracket.
  rewrite not_elem_of_app. split; [done|]. by_computation.
Qed.
End EmptyParts.

Lemma extract_same (content content' : string) :
  Re.findall_from link_pattern 0 (list_ascii_of_string content)
  = Re.findall_from link_pattern 0 (list_ascii_of_string content') →
  extract content = extract content'.
Proof. intros H. unfold extract, Re.findall. by rewrite H. Qed.

(** ** Claim about link extraction *)

(** C9, as stated, fails: inside a longer match the construct
    [[](x.md)] does hand its target to a link.  After an opening bracket
    that is still unclosed, the document [y.md] below links to [x.md]
    under the display text [a [], so that [x.md] is validated and
    counted as linked to. *)
Lemma empty_text_construct_inside_link :
  extract "[a [](x.md)" = [("a [", "x.md")] ∧
  incoming_links
    (scan_files false
       (new_validator "docs"
          [MdFile "x.md" (ReadOk ""); MdFile "y.md" (ReadOk "[a [](x.md)")]
          []))
    !! "x.md"
  = Some [("y.md", "a [")].
Proof. split; vm_compute; reflexivity. Qed.

(** C9, amended.  Every extracted link has a non-empty display text and
    a target made of a non-empty stem followed by [.md].  After text
    that holds no opening bracket, a pair of brackets with nothing in
    between starts no link, and neither does a whole construct
    [[t](.md)] whose text holds no bracket: extraction goes on behind
    them as if they were not there.  In particular the documents
    [[](x.md)] and [[t](.md)] have no link. *)
Theorem extract_never_empty :
  (∀ content text target : string,
     (text, target) ∈ extract content →
     text ≠ "" ∧ ∃ stem : string, stem ≠ "" ∧ target = stem +:+ ".md") ∧
  (∀ before tail : string,
     "["%char ∉ list_ascii_of_string before →
     extract (before +:+ "[]" +:+ tail) = extract tail) ∧
  (∀ before t tail : string,
     "["%char ∉ list_ascii_of_string before →
     "["%char ∉ list_ascii_of_string t →
     "]"%char ∉ list_ascii_of_string t →
     extract (before +:+ "[" +:+ t +:+ "](.md)" +:+ tail) = extract tail) ∧
  extract "[](x.md)" = [] ∧
  extract "[t](.md)" = [].
Proof.
  split; [|split; [|split; [|split; vm_compute; reflexivity]]].
  - intros content text target H.
    apply extract_shape in H as (x & t & y & s & -> & ->).
    split; [done|]. by exists (string_of_list_ascii (y :: s)).
  - intros before tail Hb. apply extract_same.
    rewrite !list_ascii_of_append.
    by apply findall_from_empty_text.
  - intros before t tail Hb Ht Htc. apply extract_same.
    rewrite !list_ascii_of_append.
    by apply findall_from_empty_stem.
Qed.

Lemma extract_never_empty_witness :
  ("a" ≠ "" ∧ ∃ stem : string, stem ≠ "" ∧ "b.md" = stem +:+ ".md") ∧
  extract ("see " +:+ "[]" +:+ "(x.md), then [a](b.md)")
  = extract "(x.md), then [a](b.md)" ∧
  extract ("see " +:+ "[" +:+ "t" +:+ "](.md)" +:+ ", then [a](b.md)")
  = extract ", then [a](b.md)".
Proof.
  destruct extract_never_empty as (H1 & H2 & H3 & _).
  split; [|split].
  - apply (H1 "see [a](b.md#top)" "a" "b.md"). by_computation.
  - apply (H2 "see " "(x.md), then [a](b.md)"). by_computation.
  - apply (H3 "see " "t" ", then [a](b.md)"); by_computation.
Defined.
